(** * The room relay of server.js, embedded in Rocq

  The relay is a socket.io server.  Its five handlers ([join],
  [sound:stroke], [sound:state], [canvas:clear], [disconnect]) are
  translated below as functions on the state of socket.io's in-memory
  adapter, which is the only state the server has.  Every handler
  returns the adapter it leaves behind together with the list of
  messages it delivers, in the order the deliveries are made; a handler
  that throws returns [Threw]. *)

From stdpp Require Import base strings list gmap fin_maps.
From Stdlib Require Import ZArith.

Local Open Scope string_scope.
Set Warnings "-register-all,-clear-no-such-hyp".

(** ** JavaScript values that travel through the relay *)

Module JS.

Inductive value :=
| Undefined
| Null
| Bool (b : bool)
| Num (n : Z)
| Str (s : string)
| Obj (fields : list (string * value)).

(** A JavaScript [Set] of strings iterates in insertion order and holds
    no element twice: a list, with [add] appending a new element. *)
Definition set_add (x : string) (s : list string) : list string :=
  if decide (x ∈ s) then s else s ++ [x].

Definition set_delete (x : string) (s : list string) : list string :=
  filter (λ y, y ≠ x) s.

(** [v?.size || 0] on the result of a [Map.get]. *)
Definition opt_size (v : option (list string)) : option nat :=
  length <$> v.

Definition or_zero (v : option nat) : nat :=
  match v with
  | Some (S n) => S n
  | Some O | None => 0
  end.

(** What a value is once socket.io has written it into a packet and the
    receiver has read it back: [undefined] as an argument arrives as
    [null], a property that is [undefined] does not arrive. *)
Fixpoint wire (v : value) : value :=
  match v with
  | Undefined => Null
  | Obj fields =>
      Obj ((fix go (fs : list (string * value)) :=
              match fs with
              | [] => []
              | (k, Undefined) :: fs => go fs
              | (k, v) :: fs => (k, wire v) :: go fs
              end) fields)
  | _ => v
  end.

(** A value without [undefined] in it, as every value read from a
    packet is. *)
Fixpoint defined (v : value) : bool :=
  match v with
  | Undefined => false
  | Obj fields =>
      (fix go (fs : list (string * value)) :=
         match fs with
         | [] => true
         | (k, v) :: fs => defined v && go fs
         end) fields
  | _ => true
  end.

End JS.

(** ** socket.io's in-memory adapter

  [rooms] is the adapter's [Map<Room, Set<SocketId>>] and [sids] its
  [Map<SocketId, Set<Room>>].  [socket.join(room)] is the adapter's
  [addAll], [socket.rooms] is [sids.get(id)] (an empty set when the
  socket is gone), and closing a socket runs [delAll]. *)

Module Adapter.

Record t := mk {
  rooms : gmap string (list string);
  sids : gmap string (list string)
}.

Definition empty : t := {| rooms := ∅; sids := ∅ |}.

(** [io.sockets.adapter.rooms.get(room)], read as a set. *)
Definition members (a : t) (room : string) : list string :=
  default [] (rooms a !! room).

(** [socket.rooms] *)
Definition socket_rooms (a : t) (id : string) : list string :=
  default [] (sids a !! id).

(** [socket.join(room)] *)
Definition socket_join (id room : string) (a : t) : t :=
  {| rooms := <[room := JS.set_add id (members a room)]> (rooms a);
     sids := <[id := JS.set_add room (socket_rooms a id)]> (sids a) |}.

(** The adapter's removal of one member from one room; a room that
    becomes empty is dropped from the map. *)
Definition del_member (id room : string)
    (rs : gmap string (list string)) : gmap string (list string) :=
  match rs !! room with
  | None => rs
  | Some m =>
      match JS.set_delete id m with
      | [] => delete room rs
      | m' => <[room := m']> rs
      end
  end.

(** [delAll(id)]: leave every room, then forget the socket. *)
Definition delAll (id : string) (a : t) : t :=
  match sids a !! id with
  | None => a
  | Some joined =>
      {| rooms := foldl (λ rs room, del_member id room rs) (rooms a) joined;
         sids := delete id (sids a) |}
  end.

(** A session's room set and the rooms' member sets describe the same
    relation. *)
Definition consistent (a : t) : Prop :=
  ∀ id room, id ∈ members a room ↔ room ∈ socket_rooms a id.

(** [joined a id r]: both maps of the adapter record [id] in [r]. *)
Definition joined (a : t) (id r : string) : Prop :=
  (∃ m, rooms a !! r = Some m ∧ id ∈ m) ∧
  (∃ l, sids a !! id = Some l ∧ r ∈ l).

End Adapter.

(** ** The relay: server.js *)

Module Relay.
Import Adapter.

(** One message handed to one client socket. *)
Record delivery := deliver {
  dest : string;
  event : string;
  payload : option JS.value
}.

Inductive outcome :=
| Done (a : Adapter.t) (out : list delivery)
| Threw (error : string).

(** What a client attached to [join]: nothing (the handler then sees
    [undefined]), or an object whose [room] and [username] properties
    are strings when they are present. *)
Inductive join_data :=
| NoData
| Fields (room username : option string).

(** [!v] for a property that is a string or missing. *)
Definition falsy (v : option string) : bool :=
  match v with
  | None => true
  | Some s => bool_decide (s = "")
  end.

(** [Array.from(socket.rooms).filter(r => r !== socket.id)] *)
Definition real_rooms (a : Adapter.t) (id : string) : list string :=
  filter (λ r, r ≠ id) (socket_rooms a id).

(** [io.sockets.adapter.rooms.get(room)?.size || 0] *)
Definition room_size (a : Adapter.t) (room : string) : nat :=
  JS.or_zero (JS.opt_size (rooms a !! room)).

(** [socket.to(room).emit(ev, p)]: socket.io (4.x) hands the message to
    the sockets in the room, except those in the room named after the
    sender's id, which the broadcast carries as its [exceptRooms].
    These are the sender, which socket.io puts in this room when it
    connects and which server.js never takes out of it, and any socket
    that has joined the room. *)
Definition socket_to (a : Adapter.t) (id room ev : string)
    (p : option JS.value) : list delivery :=
  (λ m, deliver m ev p)
    <$> filter (λ m, m ≠ id ∧ m ∉ members a id) (members a room).

(** [io.to(room).emit(ev, p)]: every member of the room. *)
Definition io_to (a : Adapter.t) (room ev : string)
    (p : option JS.value) : list delivery :=
  (λ m, deliver m ev p) <$> members a room.

(** [socket.emit(ev, p)]: the socket itself. *)
Definition socket_emit (id ev : string) (p : option JS.value)
    : list delivery :=
  [deliver id ev p].

Definition count_msg (n : nat) : JS.value :=
  JS.Obj [("count", JS.Num (Z.of_nat n))].

(** [socket.on('join', ...)].  The [console.log] of line 22 writes room
    and username, strings here, into a text and has no part in the
    result. *)
Definition on_join (a : Adapter.t) (id : string) (data : join_data)
    : outcome :=
  match data with
  | NoData => Threw "TypeError"
  | Fields room username =>
      if falsy room || falsy username then Done a [] else
      match room, username with
      | Some room, Some username =>
          let a' := socket_join id room a in
          let roomSize := room_size a' room in
          Done a'
            (socket_to a' id room "user:joined"
               (Some (JS.Obj [("username", JS.Str username);
                              ("id", JS.Str id)]))
             ++ socket_emit id "room:info"
                  (Some (JS.Obj [("room", JS.Str room);
                                 ("userCount", JS.Num (Z.of_nat roomSize))]))
             ++ io_to a' room "room:count" (Some (count_msg roomSize)))
      | _, _ => Done a []
      end
  end.

(** The loop shared by the three forwarding handlers. *)
Definition fan_out (a : Adapter.t) (id ev : string)
    (p : option JS.value) : list delivery :=
  room ← real_rooms a id; socket_to a id room ev p.

(** [socket.on('sound:stroke', ...)] *)
Definition on_stroke (a : Adapter.t) (id : string) (data : JS.value)
    : outcome :=
  Done a (fan_out a id "sound:stroke" (Some (JS.wire data))).

(** [socket.on('sound:state', ...)] *)
Definition on_state (a : Adapter.t) (id : string) (data : JS.value)
    : outcome :=
  Done a (fan_out a id "sound:state" (Some (JS.wire data))).

(** [socket.on('canvas:clear', ...)] *)
Definition on_clear (a : Adapter.t) (id : string) : outcome :=
  Done a (fan_out a id "canvas:clear" None).

(** [socket.on('disconnect', ...)], on the adapter it is run on. *)
Definition on_disconnect (a : Adapter.t) (id : string) : outcome :=
  Done a (room ← real_rooms a id;
          io_to a room "room:count" (Some (count_msg (room_size a room)))).

(** socket.io enrols a new socket in the room named after its id
    before the connection callback runs. *)
Definition connect (a : Adapter.t) (id : string) : outcome :=
  Done (socket_join id id a) [].

(** When a socket closes, socket.io emits [disconnecting], makes the
    socket leave all its rooms, and only then emits [disconnect]: the
    handler of server.js runs on the adapter after [delAll]. *)
Definition close (a : Adapter.t) (id : string) : outcome :=
  on_disconnect (delAll id a) id.

Inductive message :=
| Connect (id : string)
| Join (id : string) (data : join_data)
| Stroke (id : string) (data : JS.value)
| State (id : string) (data : JS.value)
| Clear (id : string)
| Disconnect (id : string).

Definition step (a : Adapter.t) (m : message) : outcome :=
  match m with
  | Connect id => connect a id
  | Join id data => on_join a id data
  | Stroke id data => on_stroke a id data
  | State id data => on_state a id data
  | Clear id => on_clear a id
  | Disconnect id => close a id
  end.

(** The messages are handled one after the other, each to completion;
    an uncaught exception ends the run. *)
Fixpoint run (a : Adapter.t) (ms : list message) : option Adapter.t :=
  match ms with
  | [] => Some a
  | m :: ms =>
      match step a m with
      | Done a' _ => run a' ms
      | Threw _ => None
      end
  end.

(** Whether a message is an accepted [join] of session [id] for a room
    other than the one named after the session itself. *)
Definition joins_real_room (id : string) (m : message) : bool :=
  match m with
  | Join id' (Fields (Some room) (Some username)) =>
      bool_decide (id' = id)
      && negb (falsy (Some room) || falsy (Some username))
      && bool_decide (room ≠ id)
  | _ => false
  end.

End Relay.

(** ** The room registry

    The spec names the registry's operations [join], [leave] and
    [roomsOf].  The first and the last are what server.js does with
    [socket.join] and [socket.rooms]. *)

Module Registry.
Import Adapter.

(** Lines 21 and 24 of server.js: join the room, then read its size. *)
Definition join (id room : string) (a : Adapter.t) : Adapter.t * nat :=
  let a' := socket_join id room a in (a', Relay.room_size a' room).

Definition roomsOf (a : Adapter.t) (id : string) : list string :=
  Relay.real_rooms a id.

(** Modelled from the spec: the registry operation [leave], for which
    server.js has no handler and which it never calls.  It removes the
    session from the room's member set (and the room from the session's
    set, a room left without members being absent from the registry),
    returns the room's new member count, and does nothing when the
    session was not a member. *)
Definition leave (id room : string) (a : Adapter.t) : Adapter.t * nat :=
  if decide (id ∈ members a room) then
    let a' :=
      {| rooms := del_member id room (rooms a);
         sids := <[id := JS.set_delete room (socket_rooms a id)]> (sids a) |} in
    (a', Relay.room_size a' room)
  else (a, Relay.room_size a room).

(** A finite sequence of [join(id, r)] calls. *)
Definition joins (id : string) (rs : list string) (a : Adapter.t)
    : Adapter.t :=
  foldl (λ a r, (join id r a).1) a rs.

(** Everything that can touch the registry: a message handled by the
    relay, or the registry's [leave]. *)
Inductive operation :=
| Handle (m : Relay.message)
| Leave (id room : string).

Definition perform (a : Adapter.t) (o : operation) : option Adapter.t :=
  match o with
  | Handle m =>
      match Relay.step a m with
      | Relay.Done a' _ => Some a'
      | Relay.Threw _ => None
      end
  | Leave id room => Some (leave id room a).1
  end.

Fixpoint perform_all (a : Adapter.t) (os : list operation)
    : option Adapter.t :=
  match os with
  | [] => Some a
  | o :: os =>
      match perform a o with
      | Some a' => perform_all a' os
      | None => None
      end
  end.

End Registry.

(** ** The scenarios of the spec *)

Module Scenario.
Import Relay.

Definition alice : join_data := Fields (Some "ABCDEF") (Some "Alice").
Definition bob : join_data := Fields (Some "ABCDEF") (Some "Bob").

(** A and B connected, A alone in room ABCDEF. *)
Definition alice_in : list message :=
  [Connect "A"; Connect "B"; Join "A" alice].

(** A and B both in room ABCDEF. *)
Definition both_in : list message :=
  alice_in ++ [Join "B" bob].

(** A in rooms ABCDEF and UVWXYZ, B only in ABCDEF, C only in UVWXYZ. *)
Definition two_rooms : list message :=
  both_in ++ [Connect "C";
              Join "A" (Fields (Some "UVWXYZ") (Some "Alice"));
              Join "C" (Fields (Some "UVWXYZ") (Some "Carol"))].

(** B in room ABCDEF, and in the room named after A's id. *)
Definition in_own_room : list message :=
  [Connect "A"; Connect "B"; Join "B" bob;
   Join "B" (Fields (Some "A") (Some "Bob"))].

(** A and B in ABCDEF, C in UVWXYZ and in the room named after A's
    id. *)
Definition second_room : list message :=
  both_in ++ [Connect "C";
              Join "C" (Fields (Some "UVWXYZ") (Some "Carol"));
              Join "C" (Fields (Some "A") (Some "Carol"))].

Definition stroke : JS.value :=
  JS.Obj [("x", JS.Num 10); ("y", JS.Num 20); ("px", JS.Num 5);
          ("py", JS.Num 15); ("size", JS.Num 30); ("hue", JS.Num 200);
          ("sat", JS.Num 80); ("light", JS.Num 60);
          ("brushMode", JS.Str "marker")].

End Scenario.

(** ** What the traces of the relay are asked about *)

Module Trace.
Import Adapter Relay.

(** The session a message comes from. *)
Definition sender (m : message) : string :=
  match m with
  | Connect id | Join id _ | Stroke id _ | State id _ | Clear id
  | Disconnect id => id
  end.

(** Every accepted [join] of session [id] names the room [room]. *)
Definition joins_only (id room : string) (m : message) : bool :=
  match m with
  | Join id' (Fields (Some r) (Some u)) =>
      negb (bool_decide (id' = id))
      || falsy (Some r) || falsy (Some u)
      || bool_decide (r = room)
  | _ => true
  end.

(** The sets of the adapter hold nothing twice, and no room is kept
    without members. *)
Definition tidy (a : Adapter.t) : Prop :=
  (∀ room, NoDup (members a room))
  ∧ (∀ id, NoDup (socket_rooms a id))
  ∧ (∀ room, rooms a !! room ≠ Some []).

(** How many of the deliveries go to session [m]. *)
Definition copies (m : string) (out : list delivery) : nat :=
  length (filter (λ d, dest d = m) out).

End Trace.

(** ** The client: public/sketch.js

    Of the sketch, what decides which messages reach the relay: the room
    code and the username ([initRoom], [generateRoomCode], the username
    prompt), the [join] sent on connect, and the strokes sent while the
    mouse is dragged ([mousePressed], [draw], [emitStroke]).  Painting
    and sound analysis are not part of it. *)

Module Client.
Import Stdlib.Strings.Ascii Relay.

(** [toUpperCase] on ASCII text. *)
Definition upper (c : ascii) : ascii :=
  let n := nat_of_ascii c in
  if (97 <=? n)%nat && (n <=? 122)%nat then ascii_of_nat (n - 32) else c.

Fixpoint toUpperCase (s : string) : string :=
  match s with
  | EmptyString => EmptyString
  | String c s => String (upper c) (toUpperCase s)
  end.

(** [s.substring(from, to)] *)
Definition substring (from to : nat) (s : string) : string :=
  String.substring (from `min` to) ((from `max` to) - (from `min` to)) s.

(** [generateRoomCode()], given the text [Math.random().toString(36)]. *)
Definition generateRoomCode (random36 : string) : string :=
  toUpperCase (substring 2 8 random36).

Definition is_digit (c : ascii) : bool :=
  let n := nat_of_ascii c in (48 <=? n)%nat && (n <=? 57)%nat.

Definition is_lower (c : ascii) : bool :=
  let n := nat_of_ascii c in (97 <=? n)%nat && (n <=? 122)%nat.

Definition is_upper (c : ascii) : bool :=
  let n := nat_of_ascii c in (65 <=? n)%nat && (n <=? 90)%nat.

(** The digits of a numeral in base 36. *)
Definition base36 (s : string) : bool :=
  forallb (λ c, is_digit c || is_lower c) (String.list_ascii_of_string s).

Definition upper_alnum (s : string) : bool :=
  forallb (λ c, is_digit c || is_upper c) (String.list_ascii_of_string s).

(** [v || d] for a string that may be [null]. *)
Definition or_else (v : option string) (d : string) : string :=
  match v with
  | Some s => if bool_decide (s = "") then d else s
  | None => d
  end.

(** What the page finds in the browser: the [room] parameter of its URL
    and the [username] item of [localStorage]. *)
Record browser := {
  url_room : option string;
  stored_username : option string
}.

(** The globals [roomCode] and [username] of the sketch. *)
Record t := {
  roomCode : string;
  username : string
}.

(** [initRoom()].  [history.replaceState] writes the room code into the
    URL when the URL had none. *)
Definition initRoom (b : browser) (random36 : string) : t * browser :=
  let roomCode := or_else (url_room b) (generateRoomCode random36) in
  let b' :=
    if falsy (url_room b)
    then {| url_room := Some roomCode; stored_username := stored_username b |}
    else b in
  ({| roomCode := roomCode;
      username := or_else (stored_username b) "Guest" |}, b').

(** What holds of the sketch's globals and the browser between two
    events of a page. *)
Definition page_ok (room : string) (c : t) (b : browser) : Prop :=
  roomCode c = room
  ∧ username c ≠ ""
  ∧ url_room b = Some room
  ∧ or_else (stored_username b) "Guest" = username c.

(** [socket.on('connect', ...)]: the payload of the [join] sent. *)
Definition on_connect (c : t) : join_data :=
  Fields (Some (roomCode c)) (Some (username c)).

Section Prompt.

(** [String.prototype.trim] *)
Variable trim : string → string.

(** The click on the username: [answer] is what [prompt] returned,
    [None] when it was cancelled.  An accepted name is stored and
    announced by a new [join]. *)
Definition on_username_click (c : t) (b : browser) (answer : option string)
    : t * browser * option join_data :=
  match answer with
  | Some newUsername =>
      if negb (falsy (Some newUsername))
         && negb (falsy (Some (trim newUsername)))
      then
        let username := trim newUsername in
        ({| roomCode := roomCode c; username := username |},
         {| url_room := url_room b; stored_username := Some username |},
         Some (Fields (Some (roomCode c)) (Some username)))
      else (c, b, None)
  | None => (c, b, None)
  end.

(** Any number of clicks on the username: the state reached and the
    [join] payloads sent. *)
Fixpoint clicks (c : t) (b : browser) (answers : list (option string))
    : t * browser * list join_data :=
  match answers with
  | [] => (c, b, [])
  | answer :: answers =>
      let '(c1, b1, sent) := on_username_click c b answer in
      let '(c2, b2, rest) := clicks c1 b1 answers in
      (c2, b2, (option_list sent ++ rest)%list)
  end.

End Prompt.

(** *** Object literals *)

(** Writing a property: in place when the object has it, at the end
    otherwise. *)
Fixpoint set_prop (k : string) (v : JS.value)
    (o : list (string * JS.value)) : list (string * JS.value) :=
  match o with
  | [] => [(k, v)]
  | (k', v') :: o' =>
      if decide (k' = k) then (k, v) :: o' else (k', v') :: set_prop k v o'
  end.

Fixpoint get_prop (k : string) (o : list (string * JS.value))
    : option JS.value :=
  match o with
  | [] => None
  | (k', v) :: o' => if decide (k' = k) then Some v else get_prop k o'
  end.

(** [{ k1: v1, ..., ...spread, ... }]: the properties are written from
    left to right. *)
Definition object_literal (ps : list (string * JS.value))
    : list (string * JS.value) :=
  foldl (λ o kv, set_prop kv.1 kv.2 o) [] ps.

(** The data of [emitStroke(x, y, px, py, params)]:
    [{ x, y, px, py, ...params, brushMode: currentBrushMode }]. *)
Definition emitStroke (currentBrushMode : string) (x y px py : JS.value)
    (params : list (string * JS.value)) : JS.value :=
  JS.Obj (object_literal
            ([("x", x); ("y", y); ("px", px); ("py", py)]
             ++ params ++ [("brushMode", JS.Str currentBrushMode)])).

(** *** Dragging *)

Record pen := {
  lastEmitX : JS.value;
  lastEmitY : JS.value;
  currentBrushMode : string
}.

Inductive input :=
| MousePressed (mouseX mouseY : JS.value)
| Draw (frameCount : nat) (mouseIsPressed : bool) (mouseX mouseY : JS.value)
    (params : list (string * JS.value))
| BrushMode (value : string).

(** [mousePressed()], the change of the brush-mode select, and what
    [draw()] does with the socket: on every second frame of a drag it
    sends a stroke from the last point sent to the mouse, [params] being
    what [analyzeSound()] returned for the frame. *)
Definition feed (p : pen) (i : input) : pen * list JS.value :=
  match i with
  | MousePressed mouseX mouseY =>
      ({| lastEmitX := mouseX; lastEmitY := mouseY;
          currentBrushMode := currentBrushMode p |}, [])
  | Draw frameCount mouseIsPressed mouseX mouseY params =>
      if mouseIsPressed && bool_decide (frameCount `mod` 2 = 0) then
        ({| lastEmitX := mouseX; lastEmitY := mouseY;
            currentBrushMode := currentBrushMode p |},
         [emitStroke (currentBrushMode p) mouseX mouseY
            (lastEmitX p) (lastEmitY p) params])
      else (p, [])
  | BrushMode value =>
      ({| lastEmitX := lastEmitX p; lastEmitY := lastEmitY p;
          currentBrushMode := value |}, [])
  end.

Fixpoint feed_all (p : pen) (inputs : list input)
    : pen * list JS.value :=
  match inputs with
  | [] => (p, [])
  | i :: inputs =>
      let '(p1, out) := feed p i in
      let '(p2, rest) := feed_all p1 inputs in
      (p2, (out ++ rest)%list)
  end.

Definition is_press (i : input) : bool :=
  match i with
  | MousePressed _ _ => true
  | _ => false
  end.

(** The properties [x], [y], [px], [py], which [params] must not carry
    for the stroke to keep its own. *)
Definition clean (params : list (string * JS.value)) : bool :=
  forallb (λ kv, negb (bool_decide (kv.1 ∈ ["x"; "y"; "px"; "py"]))) params.

Definition clean_input (i : input) : bool :=
  match i with
  | Draw _ _ _ _ params => clean params
  | _ => true
  end.

(** The segment a stroke payload describes: from [(px, py)] to
    [(x, y)]. *)
Definition segment (data : JS.value)
    : option (JS.value * JS.value) * option (JS.value * JS.value) :=
  match data with
  | JS.Obj o =>
      (p ← get_prop "px" o; q ← get_prop "py" o; Some (p, q),
       p ← get_prop "x" o; q ← get_prop "y" o; Some (p, q))
  | _ => (None, None)
  end.

(** Each segment starts where the one before ended. *)
Fixpoint connected (start : JS.value * JS.value) (ds : list JS.value)
    : Prop :=
  match ds with
  | [] => True
  | d :: ds =>
      (segment d).1 = Some start
      ∧ ∃ stop, (segment d).2 = Some stop ∧ connected stop ds
  end.

(** *** The online counter *)

(** [data.k] for a received payload; [None] is the TypeError of reading
    a property of [undefined] or [null]. *)
Definition prop_of (data : option JS.value) (k : string)
    : option JS.value :=
  match data with
  | Some (JS.Obj o) => Some (default JS.Undefined (get_prop k o))
  | Some JS.Undefined | Some JS.Null | None => None
  | Some _ => Some JS.Undefined
  end.

(** What the counter shows after a message has come in:
    [room:info] and [room:count] hand [data.userCount] and [data.count]
    to [updateOnlineCount]; a handler that throws, and the handlers of
    the other messages, leave the counter alone. *)
Definition on_receive (shown : JS.value) (d : delivery) : JS.value :=
  if bool_decide (event d = "room:info")
  then default shown (prop_of (payload d) "userCount")
  else if bool_decide (event d = "room:count")
  then default shown (prop_of (payload d) "count")
  else shown.

(** The counter of session [m] after the deliveries [out], those to
    other sessions passing it by. *)
Definition shown_after (m : string) (shown : JS.value)
    (out : list delivery) : JS.value :=
  foldl on_receive shown (filter (λ d, dest d = m) out).

End Client.

(** * Properties *)

Import Adapter Relay.

(** ** JavaScript sets *)

Lemma elem_of_set_add (x y : string) (s : list string) :
  y ∈ JS.set_add x s ↔ y = x ∨ y ∈ s.
Proof.
  unfold JS.set_add. case_decide as Hx.
  - split; [by right | by intros [->|?]].
  - rewrite elem_of_app, list_elem_of_singleton. tauto.
Qed.

Lemma elem_of_set_delete (x y : string) (s : list string) :
  y ∈ JS.set_delete x s ↔ y ≠ x ∧ y ∈ s.
Proof. unfold JS.set_delete. by rewrite list_elem_of_filter. Qed.

Lemma set_add_elem (x : string) (s : list string) :
  x ∈ s → JS.set_add x s = s.
Proof. intros Hx. unfold JS.set_add. by rewrite decide_True. Qed.

Lemma set_add_idemp (x : string) (s : list string) :
  JS.set_add x (JS.set_add x s) = JS.set_add x s.
Proof. apply set_add_elem, elem_of_set_add. by left. Qed.

Lemma set_delete_not_elem (x : string) (s : list string) :
  x ∉ s → JS.set_delete x s = s.
Proof.
  intros Hx. unfold JS.set_delete. induction s as [|y s IH]; [done|].
  apply not_elem_of_cons in Hx as [Hxy Hx].
  rewrite filter_cons_True by done. by rewrite IH.
Qed.

Lemma set_delete_add_new (x : string) (s : list string) :
  x ∉ s → JS.set_delete x (JS.set_add x s) = s.
Proof.
  intros Hx. unfold JS.set_add. rewrite decide_False by done.
  unfold JS.set_delete. rewrite filter_app, filter_cons_False by naive_solver.
  rewrite filter_nil, app_nil_r. by apply set_delete_not_elem.
Qed.

Lemma set_delete_idemp (x : string) (s : list string) :
  JS.set_delete x (JS.set_delete x s) = JS.set_delete x s.
Proof.
  apply set_delete_not_elem. rewrite elem_of_set_delete. by intros [? _].
Qed.

Lemma NoDup_set_add (x : string) (s : list string) :
  NoDup s → NoDup (JS.set_add x s).
Proof.
  intros Hs. unfold JS.set_add. case_decide; [done|].
  apply NoDup_app. split_and!; [done| |apply NoDup_singleton].
  intros y Hy Hyx%list_elem_of_singleton. by subst.
Qed.

(** ** The adapter *)

Lemma members_socket_join (id room r : string) (a : Adapter.t) :
  members (socket_join id room a) r =
    if decide (r = room) then JS.set_add id (members a room) else members a r.
Proof.
  unfold members at 1. simpl. case_decide as Hr.
  - subst. by rewrite lookup_insert_eq.
  - by rewrite lookup_insert_ne.
Qed.

Lemma socket_rooms_socket_join (id room s : string) (a : Adapter.t) :
  socket_rooms (socket_join id room a) s =
    if decide (s = id) then JS.set_add room (socket_rooms a id)
    else socket_rooms a s.
Proof.
  unfold socket_rooms at 1. simpl. case_decide as Hs.
  - subst. by rewrite lookup_insert_eq.
  - by rewrite lookup_insert_ne.
Qed.

Lemma consistent_empty : consistent Adapter.empty.
Proof.
  intros id room. unfold members, socket_rooms. simpl.
  rewrite !lookup_empty. simpl. split; intros []%elem_of_nil.
Qed.

Lemma consistent_socket_join (id room : string) (a : Adapter.t) :
  consistent a → consistent (socket_join id room a).
Proof.
  intros Ha s r. rewrite members_socket_join, socket_rooms_socket_join.
  pose proof (Ha s r). pose proof (Ha id room). pose proof (Ha s room).
  pose proof (Ha id r).
  repeat case_decide; subst; rewrite ?elem_of_set_add; naive_solver.
Qed.

Lemma lookup_del_member (id room r : string) (rs : gmap string (list string)) :
  default [] (del_member id room rs !! r) =
    if decide (r = room) then JS.set_delete id (default [] (rs !! r))
    else default [] (rs !! r).
Proof.
  unfold del_member. destruct (rs !! room) as [m|] eqn:Hm.
  - destruct (JS.set_delete id m) as [|x m'] eqn:Hd; case_decide; subst.
    + rewrite lookup_delete_eq, Hm. simpl. by rewrite Hd.
    + by rewrite lookup_delete_ne.
    + rewrite lookup_insert_eq, Hm. simpl. by rewrite Hd.
    + by rewrite lookup_insert_ne.
  - case_decide; subst; [|done]. by rewrite Hm.
Qed.

Lemma lookup_del_members (id r : string) (joined : list string)
    (rs : gmap string (list string)) :
  default [] (foldl (λ rs room, del_member id room rs) rs joined !! r) =
    if decide (r ∈ joined) then JS.set_delete id (default [] (rs !! r))
    else default [] (rs !! r).
Proof.
  revert rs. induction joined as [|room joined IH]; intros rs.
  - by rewrite decide_False by apply not_elem_of_nil.
  - cbn [foldl]. rewrite IH, lookup_del_member.
    destruct (decide (r = room)) as [->|Hne].
    + rewrite (decide_True (P := room ∈ room :: joined)) by left.
      case_decide; [apply set_delete_idemp | done].
    + destruct (decide (r ∈ joined)) as [Hin|Hnin].
      * by rewrite decide_True by by right.
      * rewrite decide_False; [done|].
        by intros [?|?]%elem_of_cons.
Qed.

Lemma members_delAll (id r : string) (a : Adapter.t) :
  members (delAll id a) r =
    if decide (r ∈ socket_rooms a id) then JS.set_delete id (members a r)
    else members a r.
Proof.
  unfold delAll, socket_rooms, members.
  destruct (sids a !! id) as [joined|]; cbn [default rooms].
  - apply lookup_del_members.
  - by rewrite decide_False by apply not_elem_of_nil.
Qed.

Lemma socket_rooms_delAll (id s : string) (a : Adapter.t) :
  socket_rooms (delAll id a) s =
    if decide (s = id) then [] else socket_rooms a s.
Proof.
  unfold delAll, socket_rooms.
  destruct (sids a !! id) as [joined|] eqn:Hid; simpl; case_decide; subst.
  - by rewrite lookup_delete_eq.
  - by rewrite lookup_delete_ne.
  - by rewrite Hid.
  - done.
Qed.

Lemma consistent_delAll (id : string) (a : Adapter.t) :
  consistent a → consistent (delAll id a).
Proof.
  intros Ha s r. rewrite members_delAll, socket_rooms_delAll.
  pose proof (Ha s r). pose proof (Ha id r).
  repeat case_decide; subst; rewrite ?elem_of_set_delete, ?elem_of_nil;
    naive_solver.
Qed.

(** ** The registry operations *)

Lemma members_leave (id room r : string) (a : Adapter.t) :
  members (Registry.leave id room a).1 r =
    if decide (r = room) then JS.set_delete id (members a r) else members a r.
Proof.
  unfold Registry.leave. case_decide as Hin; simpl.
  - unfold members at 1. simpl. apply lookup_del_member.
  - case_decide; subst; [|done]. by rewrite set_delete_not_elem.
Qed.

Lemma socket_rooms_leave (id room s : string) (a : Adapter.t) :
  id ∈ members a room →
  socket_rooms (Registry.leave id room a).1 s =
    if decide (s = id) then JS.set_delete room (socket_rooms a id)
    else socket_rooms a s.
Proof.
  intros Hin. unfold Registry.leave. rewrite decide_True by done. simpl.
  unfold socket_rooms at 1. simpl. case_decide; subst.
  - by rewrite lookup_insert_eq.
  - by rewrite lookup_insert_ne.
Qed.

Lemma consistent_leave (id room : string) (a : Adapter.t) :
  consistent a → consistent (Registry.leave id room a).1.
Proof.
  intros Ha. destruct (decide (id ∈ members a room)) as [Hin|Hnin].
  - intros s r. rewrite members_leave, socket_rooms_leave by done.
    pose proof (Ha s r). pose proof (Ha id r).
    repeat case_decide; subst; rewrite ?elem_of_set_delete; naive_solver.
  - unfold Registry.leave. by rewrite decide_False.
Qed.

(** ** Member counts *)

Lemma room_size_length (a : Adapter.t) (room : string) :
  room_size a room = length (members a room).
Proof.
  unfold room_size, members. destruct (rooms a !! room) as [m|]; [|done].
  by destruct m.
Qed.

(** C10. The member count [rooms.get(room)?.size || 0], which the join
    handler and the disconnect handler both compute, is defined for
    every room id: it is 0 when the room is absent from the registry and
    the size of the member set otherwise. *)
Theorem room_size_total (a : Adapter.t) (room : string) :
  match rooms a !! room with
  | None => room_size a room = 0
  | Some m => room_size a room = length m
  end.
Proof.
  pose proof (room_size_length a room) as Hlen. unfold members in Hlen.
  by destruct (rooms a !! room).
Qed.

(** ** The join handler *)

(** A [join] whose payload is an object with [room] or [username]
    missing or empty is dropped: nothing changes and nothing is sent. *)
Lemma on_join_dropped (a : Adapter.t) (id : string)
    (room username : option string) :
  falsy room || falsy username = true →
  on_join a id (Fields room username) = Done a [].
Proof. intros Hf. unfold on_join. by rewrite Hf. Qed.

(** An accepted [join] runs the body of the handler. *)
Lemma on_join_accepted (a : Adapter.t) (id room username : string) :
  room ≠ "" → username ≠ "" →
  on_join a id (Fields (Some room) (Some username)) =
    let a' := socket_join id room a in
    Done a'
      (socket_to a' id room "user:joined"
         (Some (JS.Obj [("username", JS.Str username); ("id", JS.Str id)]))
       ++ socket_emit id "room:info"
            (Some (JS.Obj [("room", JS.Str room);
                           ("userCount",
                            JS.Num (Z.of_nat (room_size a' room)))]))
       ++ io_to a' room "room:count" (Some (count_msg (room_size a' room)))).
Proof.
  intros Hroom Huser. unfold on_join. simpl.
  by rewrite !bool_decide_eq_false_2 by done.
Qed.

(** C4. A [join] sent without a payload has neither [room] nor
    [username]; the handler does not drop it silently but throws while
    taking [data] apart, before its guard is reached. *)
Theorem on_join_no_data_throws (a : Adapter.t) (id : string) :
  on_join a id NoData = Threw "TypeError".
Proof. reflexivity. Qed.

(** C3, as the relay has it.  A [join] with non-empty room and username
    registers the session under the room and then delivers, in this
    order: [user:joined] with the username and the joiner's id to the
    other members of the room that are not in the room named after the
    joiner's id, [room:info] with the room and the new member count to
    the joiner, and [room:count] with the new member count to every
    member of the room, the joiner included.  The count is the size of
    the member set that contains the joiner. *)
Theorem on_join_emits (a : Adapter.t) (id room username : string) :
  room ≠ "" → username ≠ "" →
  let a' := socket_join id room a in
  let n := length (members a' room) in
  on_join a id (Fields (Some room) (Some username)) =
    Done a'
      (((λ m, deliver m "user:joined"
                (Some (JS.Obj [("username", JS.Str username);
                               ("id", JS.Str id)])))
          <$> filter (λ m, m ≠ id ∧ m ∉ members a' id) (members a' room))
       ++ [deliver id "room:info"
             (Some (JS.Obj [("room", JS.Str room);
                            ("userCount", JS.Num (Z.of_nat n))]))]
       ++ ((λ m, deliver m "room:count"
                   (Some (JS.Obj [("count", JS.Num (Z.of_nat n))])))
             <$> members a' room))
  ∧ members a' room = JS.set_add id (members a room)
  ∧ id ∈ members a' room
  ∧ room ∈ socket_rooms a' id
  ∧ (id ∉ members a room → n = S (length (members a room))).
Proof.
  intros Hroom Huser a' n. split_and!.
  - rewrite on_join_accepted by done. simpl.
    fold a'. by rewrite room_size_length.
  - unfold a'. by rewrite members_socket_join, decide_True.
  - unfold a'. rewrite members_socket_join, decide_True by done.
    apply elem_of_set_add. by left.
  - unfold a'. rewrite socket_rooms_socket_join, decide_True by done.
    apply elem_of_set_add. by left.
  - intros Hnew. unfold n, a'.
    rewrite members_socket_join, decide_True by done.
    unfold JS.set_add. rewrite decide_False by done.
    rewrite length_app. simpl. lia.
Qed.

Lemma on_join_emits_witness :
  on_join (socket_join "A" "ABCDEF" (socket_join "A" "A" Adapter.empty)) "B"
    Scenario.bob =
    Done (socket_join "B" "ABCDEF"
            (socket_join "A" "ABCDEF" (socket_join "A" "A" Adapter.empty)))
      [deliver "A" "user:joined"
         (Some (JS.Obj [("username", JS.Str "Bob"); ("id", JS.Str "B")]));
       deliver "B" "room:info"
         (Some (JS.Obj [("room", JS.Str "ABCDEF"); ("userCount", JS.Num 2)]));
       deliver "A" "room:count" (Some (JS.Obj [("count", JS.Num 2)]));
       deliver "B" "room:count" (Some (JS.Obj [("count", JS.Num 2)]))].
Proof.
  pose proof (on_join_emits
    (socket_join "A" "ABCDEF" (socket_join "A" "A" Adapter.empty))
    "B" "ABCDEF" "Bob" ltac:(done) ltac:(done)) as [H _].
  exact H.
Defined.

(** The claim C3 as the spec words it fails when a member of the room
    has joined the room named after the joiner's id: B is in ABCDEF and
    in the room A, A joins ABCDEF, and B, another member of ABCDEF, is
    sent no [user:joined]. *)
Lemma on_join_skips_own_room :
  ∃ a a', run Adapter.empty Scenario.in_own_room = Some a
  ∧ on_join a "A" Scenario.alice =
      Done a'
        [deliver "A" "room:info"
           (Some (JS.Obj [("room", JS.Str "ABCDEF");
                          ("userCount", JS.Num 2)]));
         deliver "B" "room:count" (Some (JS.Obj [("count", JS.Num 2)]));
         deliver "A" "room:count" (Some (JS.Obj [("count", JS.Num 2)]))]
  ∧ members a' "ABCDEF" = ["B"; "A"]
  ∧ members a' "A" = ["A"; "B"].
Proof.
  eexists _, _. split; [vm_compute; reflexivity|].
  split; [vm_compute; reflexivity|]. split; vm_compute; reflexivity.
Qed.

(** ** Forwarding: stroke, state, clear *)

Lemma elem_of_socket_to (a : Adapter.t) (id room ev : string)
    (p : option JS.value) (d : delivery) :
  d ∈ socket_to a id room ev p ↔
    d = deliver (dest d) ev p ∧ dest d ∈ members a room ∧ dest d ≠ id
    ∧ dest d ∉ members a id.
Proof.
  unfold socket_to. rewrite list_elem_of_fmap. split.
  - intros (m & -> & [[Hne Hown] Hm]%list_elem_of_filter). by simpl.
  - intros (Hd & Hm & Hne & Hown). exists (dest d). split; [done|].
    by apply list_elem_of_filter.
Qed.

Lemma elem_of_fan_out (a : Adapter.t) (id ev : string)
    (p : option JS.value) (d : delivery) :
  d ∈ fan_out a id ev p ↔
    d = deliver (dest d) ev p ∧ dest d ≠ id ∧ (dest d ∉ members a id) ∧
    ∃ room, room ∈ real_rooms a id ∧ dest d ∈ members a room.
Proof.
  unfold fan_out. rewrite list_elem_of_bind. split.
  - intros (room & Hd%elem_of_socket_to & Hroom). naive_solver.
  - intros (Hd & Hne & Hown & room & Hroom & Hm). exists room.
    by rewrite elem_of_socket_to.
Qed.

(** Values read from a packet are written back into one unchanged. *)
Lemma wire_defined (v : JS.value) : JS.defined v = true → JS.wire v = v.
Proof.
  revert v. fix IH 1. intros [| |b|n|s|fields]; simpl; try done.
  intros Hfields. f_equal.
  induction fields as [|[k v] fields IHfields]; [done|].
  apply andb_true_iff in Hfields as [Hv Hfields].
  rewrite (IHfields Hfields). rewrite (IH v Hv).
  by destruct v.
Qed.

Lemma elem_of_real_rooms (a : Adapter.t) (id room : string) :
  room ∈ real_rooms a id ↔ room ≠ id ∧ room ∈ socket_rooms a id.
Proof. unfold real_rooms. by rewrite list_elem_of_filter. Qed.

(** C1, as the relay has it.  When session [id] sends a stroke, the
    registry is left as it was and the payload goes out under the event
    [sound:stroke] (the spec's [stroke]), as it came when there is one
    and as [null] when there is none: to every other session in every
    real room of the sender that is not in the room named after the
    sender's id, to no session that shares no real room with the
    sender, and never to the sender.  A sender with one real room thus
    reaches exactly those members of that room. *)
Theorem on_stroke_fan_out (a : Adapter.t) (id : string) (data : JS.value) :
  ∃ out, on_stroke a id data = Done a out
  ∧ (∀ room m, room ∈ real_rooms a id → m ∈ members a room → m ≠ id →
       m ∉ members a id →
       deliver m "sound:stroke" (Some (JS.wire data)) ∈ out)
  ∧ (∀ d, d ∈ out →
       event d = "sound:stroke" ∧ payload d = Some (JS.wire data)
       ∧ dest d ≠ id ∧ (dest d ∉ members a id) ∧
       ∃ room, room ∈ real_rooms a id ∧ dest d ∈ members a room)
  ∧ (∀ room, real_rooms a id = [room] →
       out = (λ m, deliver m "sound:stroke" (Some (JS.wire data)))
               <$> filter (λ m, m ≠ id ∧ m ∉ members a id) (members a room))
  ∧ (JS.defined data = true → JS.wire data = data)
  ∧ (data = JS.Undefined → JS.wire data = JS.Null).
Proof.
  eexists. split; [reflexivity|]. split_and!.
  - intros room m Hroom Hm Hne Hown. apply elem_of_fan_out. simpl. eauto 10.
  - intros d (Hd & Hne & Hown & Hroom)%elem_of_fan_out. rewrite Hd.
    simpl. eauto.
  - intros room Hone. unfold fan_out. rewrite Hone. simpl.
    by rewrite app_nil_r.
  - apply wire_defined.
  - by intros ->.
Qed.

(** The claim C1 as the spec words it fails for a sender with two rooms:
    A is in ABCDEF and UVWXYZ, C is only in UVWXYZ, and A's stroke
    reaches C, a session not in ABCDEF. *)
Lemma on_stroke_leaves_room :
  ∃ a, run Adapter.empty Scenario.two_rooms = Some a
  ∧ "ABCDEF" ∈ real_rooms a "A"
  ∧ members a "ABCDEF" = ["A"; "B"]
  ∧ ("C" ∉ members a "ABCDEF")
  ∧ on_stroke a "A" Scenario.stroke =
      Done a [deliver "B" "sound:stroke" (Some Scenario.stroke);
              deliver "C" "sound:stroke" (Some Scenario.stroke)].
Proof.
  eexists. split; [vm_compute; reflexivity|]. split_and!.
  - apply elem_of_real_rooms. split; [done|].
    vm_compute. apply list_elem_of_In. simpl. tauto.
  - vm_compute. reflexivity.
  - vm_compute. intros Hin%list_elem_of_In. simpl in Hin. naive_solver.
  - vm_compute. reflexivity.
Qed.

(** A session in a room of the sender that has also joined the room
    named after the sender's id is passed over: B is in ABCDEF with A
    and in the room A, and A's stroke reaches nobody. *)
Lemma on_stroke_skips_own_room :
  ∃ a, run Adapter.empty
         (Scenario.both_in ++ [Join "B" (Fields (Some "A") (Some "Bob"))])
       = Some a
  ∧ members a "ABCDEF" = ["A"; "B"]
  ∧ on_stroke a "A" Scenario.stroke = Done a [].
Proof.
  eexists. split; [vm_compute; reflexivity|].
  split; vm_compute; reflexivity.
Qed.

(** A stroke sent without a payload arrives as [null]. *)
Lemma on_stroke_no_payload :
  ∃ a, run Adapter.empty Scenario.both_in = Some a
  ∧ on_stroke a "A" JS.Undefined =
      Done a [deliver "B" "sound:stroke" (Some JS.Null)].
Proof. eexists. split; vm_compute; reflexivity. Qed.

(** The same fan-out serves [sound:state] and [canvas:clear]. *)
Lemma on_state_fan_out (a : Adapter.t) (id : string) (data : JS.value) :
  on_state a id data =
    Done a (fan_out a id "sound:state" (Some (JS.wire data))).
Proof. reflexivity. Qed.

Lemma on_clear_fan_out (a : Adapter.t) (id : string) :
  on_clear a id = Done a (fan_out a id "canvas:clear" None).
Proof. reflexivity. Qed.

(** ** Disconnect *)

Lemma real_rooms_delAll (a : Adapter.t) (id : string) :
  real_rooms (delAll id a) id = [].
Proof.
  unfold real_rooms. by rewrite socket_rooms_delAll, decide_True.
Qed.

(** By the time the [disconnect] handler runs the socket has left its
    rooms, so its loop has nothing to go through. *)
Lemma close_silent (a : Adapter.t) (id : string) :
  close a id = Done (delAll id a) [].
Proof. unfold close, on_disconnect. by rewrite real_rooms_delAll. Qed.

(** C2. A disconnects while B remains in room ABCDEF, whose count was
    2.  A is removed from the room, which is left with B alone, but no
    [room:count] is delivered: B receives nothing. *)
Theorem close_sends_no_count :
  ∃ a a', run Adapter.empty Scenario.both_in = Some a
  ∧ room_size a "ABCDEF" = 2
  ∧ close a "A" = Done a' []
  ∧ members a' "ABCDEF" = ["B"]
  ∧ room_size a' "ABCDEF" = 1.
Proof.
  eexists. eexists. split; [vm_compute; reflexivity|].
  split; [vm_compute; reflexivity|].
  split; [apply close_silent|].
  split; vm_compute; reflexivity.
Qed.

(** Had the handler run before the socket left its rooms, it would have
    counted the leaving session too and addressed it as well. *)
Lemma on_disconnect_before_leaving :
  ∃ a, run Adapter.empty Scenario.both_in = Some a
  ∧ on_disconnect a "A" =
      Done a [deliver "A" "room:count" (Some (count_msg 2));
              deliver "B" "room:count" (Some (count_msg 2))].
Proof. eexists. split; vm_compute; reflexivity. Qed.

(** ** Sessions without a real room *)

Lemma real_rooms_nil (a : Adapter.t) (id : string) :
  real_rooms a id = [] ↔ ∀ r, r ∈ socket_rooms a id → r = id.
Proof.
  split.
  - intros Hnil r Hr. destruct (decide (r = id)) as [|Hne]; [done|].
    assert (r ∈ real_rooms a id) as Hin by by apply elem_of_real_rooms.
    rewrite Hnil in Hin. by apply elem_of_nil in Hin.
  - intros Hself. destruct (real_rooms a id) as [|r l] eqn:Hl; [done|].
    assert (r ∈ real_rooms a id) as [Hne Hr]%elem_of_real_rooms
      by (rewrite Hl; left).
    by apply Hself in Hr.
Qed.

Lemma step_keeps_no_real_room (a a' : Adapter.t) (id : string)
    (m : message) (out : list delivery) :
  step a m = Done a' out →
  joins_real_room id m = false →
  real_rooms a id = [] → real_rooms a' id = [].
Proof.
  rewrite !real_rooms_nil. intros Hstep Hm Hself r.
  destruct m as [s|s data|s data|s data|s|s]; simpl in Hstep.
  - injection Hstep as <- _. rewrite socket_rooms_socket_join.
    case_decide; subst; rewrite ?elem_of_set_add; naive_solver.
  - destruct data as [|room username]; [done|]. unfold on_join in Hstep.
    destruct (falsy room || falsy username) eqn:Hf.
    { injection Hstep as <- _. apply Hself. }
    destruct room as [room|], username as [username|];
      try (injection Hstep as <- _; apply Hself).
    injection Hstep as <- _. rewrite socket_rooms_socket_join.
    case_decide; subst; [|apply Hself].
    simpl in Hm. rewrite bool_decide_eq_true_2 in Hm by done.
    simpl in Hf. rewrite Hf in Hm. simpl in Hm.
    apply bool_decide_eq_false, dec_stable in Hm.
    rewrite elem_of_set_add. intros [->|Hr]; [done|by apply Hself].
  - injection Hstep as <- _. apply Hself.
  - injection Hstep as <- _. apply Hself.
  - injection Hstep as <- _. apply Hself.
  - rewrite close_silent in Hstep. injection Hstep as <- _.
    rewrite socket_rooms_delAll. case_decide; [by intros ?%elem_of_nil|].
    apply Hself.
Qed.

Lemma run_keeps_no_real_room (ms : list message) (a a' : Adapter.t)
    (id : string) :
  run a ms = Some a' →
  forallb (λ m, negb (joins_real_room id m)) ms = true →
  real_rooms a id = [] → real_rooms a' id = [].
Proof.
  revert a. induction ms as [|m ms IH]; intros a Hrun Hms Ha; simpl in *.
  - by injection Hrun as <-.
  - apply andb_true_iff in Hms as [Hm Hms].
    apply negb_true_iff in Hm.
    destruct (step a m) as [a1 out|] eqn:Hstep; [|done].
    eapply IH; [done..|]. by eapply step_keeps_no_real_room.
Qed.

(** C8. After any run of the relay in which session [id] never joined a
    real room, a stroke, state or clear message from [id] is discarded:
    each handler returns normally, leaves the registry as it was and
    delivers nothing, its loop over the session's real rooms being
    empty. *)
Theorem roomless_sender_is_silent (ms : list message) (a : Adapter.t)
    (id : string) (data : JS.value) :
  run Adapter.empty ms = Some a →
  forallb (λ m, negb (joins_real_room id m)) ms = true →
  real_rooms a id = []
  ∧ on_stroke a id data = Done a []
  ∧ on_state a id data = Done a []
  ∧ on_clear a id = Done a [].
Proof.
  intros Hrun Hms.
  assert (real_rooms a id = []) as Hnil.
  { eapply run_keeps_no_real_room; [done..|]. reflexivity. }
  unfold on_stroke, on_state, on_clear, fan_out. by rewrite Hnil.
Qed.

Lemma roomless_sender_is_silent_witness :
  let a := socket_join "A" "ABCDEF"
             (socket_join "C" "C" (socket_join "A" "A" Adapter.empty)) in
  on_stroke a "C" Scenario.stroke = Done a []
  ∧ on_state a "C" Scenario.stroke = Done a []
  ∧ on_clear a "C" = Done a [].
Proof.
  intros a.
  apply (roomless_sender_is_silent
           [Connect "A"; Connect "C"; Join "A" Scenario.alice] a "C"
           Scenario.stroke).
  - vm_compute. reflexivity.
  - vm_compute. reflexivity.
Defined.

(** ** Joining a second room *)

(** C9, as the relay has it.  A session [id] already in the real room
    [r1] joins another real room [r2].  The join leaves the member set
    of every room other than [r2] as it was, so [id] stays in [r1];
    afterwards [id] belongs to both rooms, and its stroke, state and
    clear messages reach those other members of both that are not in the
    room named after [id]. *)
Theorem on_join_second_room (a : Adapter.t) (id r1 r2 username : string) :
  r1 ∈ real_rooms a id → id ∈ members a r1 →
  r2 ≠ r1 → r2 ≠ id → r2 ≠ "" → username ≠ "" →
  ∃ a' out,
    on_join a id (Fields (Some r2) (Some username)) = Done a' out
    ∧ (∀ r, r ≠ r2 → members a' r = members a r)
    ∧ id ∈ members a' r1 ∧ id ∈ members a' r2
    ∧ r1 ∈ real_rooms a' id ∧ r2 ∈ real_rooms a' id
    ∧ (∀ s, s ≠ id → socket_rooms a' s = socket_rooms a s)
    ∧ ∀ r m, r = r1 ∨ r = r2 → m ∈ members a' r → m ≠ id →
        m ∉ members a' id →
        (∀ data, ∃ out', on_stroke a' id data = Done a' out'
           ∧ deliver m "sound:stroke" (Some (JS.wire data)) ∈ out')
        ∧ (∀ data, ∃ out', on_state a' id data = Done a' out'
             ∧ deliver m "sound:state" (Some (JS.wire data)) ∈ out')
        ∧ (∃ out', on_clear a' id = Done a' out'
             ∧ deliver m "canvas:clear" None ∈ out').
Proof.
  intros Hr1 Hin1 Hne Hreal Hroom Huser.
  pose proof (on_join_accepted a id r2 username Hroom Huser) as Hjoin.
  simpl in Hjoin. set (a' := socket_join id r2 a) in *.
  assert (id ∈ members a' r2) as Hin2.
  { unfold a'. rewrite members_socket_join, decide_True by done.
    apply elem_of_set_add. by left. }
  assert (r2 ∈ socket_rooms a' id) as Hsock2.
  { unfold a'. rewrite socket_rooms_socket_join, decide_True by done.
    apply elem_of_set_add. by left. }
  assert (∀ r, r ≠ r2 → members a' r = members a r) as Hframe.
  { intros r Hr. unfold a'. by rewrite members_socket_join, decide_False. }
  assert (r1 ∈ real_rooms a' id) as Hr1'.
  { apply elem_of_real_rooms in Hr1 as [Hne1 Hr1].
    apply elem_of_real_rooms. split; [done|]. unfold a'.
    rewrite socket_rooms_socket_join, decide_True by done.
    apply elem_of_set_add. by right. }
  assert (r2 ∈ real_rooms a' id) as Hr2'.
  { by apply elem_of_real_rooms. }
  exists a'. eexists. split; [exact Hjoin|]. split_and!; try done.
  - by rewrite Hframe.
  - intros s Hs. unfold a'.
    by rewrite socket_rooms_socket_join, decide_False.
  - intros r m Hr Hm Hm_ne Hown.
    assert (r ∈ real_rooms a' id) as Hr' by by destruct Hr as [->| ->].
    split_and!; [intros data| intros data|];
      (eexists; split; [reflexivity|]);
      apply elem_of_fan_out; simpl; eauto 10.
Qed.

Lemma on_join_second_room_witness :
  ∃ a a' out,
    run Adapter.empty Scenario.both_in = Some a
    ∧ on_join a "A" (Fields (Some "UVWXYZ") (Some "Alice")) = Done a' out
    ∧ members a' "ABCDEF" = ["A"; "B"]
    ∧ real_rooms a' "A" = ["ABCDEF"; "UVWXYZ"].
Proof.
  eexists.
  destruct (on_join_second_room
              (socket_join "B" "ABCDEF"
                 (socket_join "A" "ABCDEF"
                    (socket_join "B" "B" (socket_join "A" "A" Adapter.empty))))
              "A" "ABCDEF" "UVWXYZ" "Alice")
    as (a' & out & Hjoin & _); try done.
  - vm_compute. apply list_elem_of_In. simpl. tauto.
  - vm_compute. apply list_elem_of_In. simpl. tauto.
  - exists a', out. split; [vm_compute; reflexivity|].
    split; [exact Hjoin|].
    vm_compute in Hjoin. injection Hjoin as <- _.
    split; vm_compute; reflexivity.
Defined.

(** The claim C9 as the spec words it fails when a member of the second
    room has joined the room named after the sender's id: A is in
    ABCDEF with B and joins UVWXYZ, where C is, who is also in the room
    A; A's stroke then reaches B and not C. *)
Lemma on_join_second_room_unreached :
  ∃ a a' out, run Adapter.empty Scenario.second_room = Some a
  ∧ on_join a "A" (Fields (Some "UVWXYZ") (Some "Alice")) = Done a' out
  ∧ real_rooms a' "A" = ["ABCDEF"; "UVWXYZ"]
  ∧ members a' "UVWXYZ" = ["C"; "A"]
  ∧ on_stroke a' "A" Scenario.stroke =
      Done a' [deliver "B" "sound:stroke" (Some Scenario.stroke)].
Proof.
  eexists _, _, _. split; [vm_compute; reflexivity|].
  split; [vm_compute; reflexivity|]. split_and!; vm_compute; reflexivity.
Qed.

(** ** Sequences of joins *)

Lemma joins_cons (id r : string) (rs : list string) (a : Adapter.t) :
  Registry.joins id (r :: rs) a = Registry.joins id rs (socket_join id r a).
Proof. reflexivity. Qed.

Lemma socket_rooms_joins (id : string) (rs : list string) (a : Adapter.t)
    (r : string) :
  r ∈ socket_rooms (Registry.joins id rs a) id ↔
    r ∈ socket_rooms a id ∨ r ∈ rs.
Proof.
  revert a. induction rs as [|r0 rs IH]; intros a.
  - simpl. rewrite elem_of_nil. tauto.
  - rewrite joins_cons, IH, socket_rooms_socket_join, decide_True by done.
    rewrite elem_of_set_add, elem_of_cons. tauto.
Qed.

Lemma NoDup_socket_rooms_joins (id : string) (rs : list string)
    (a : Adapter.t) :
  NoDup (socket_rooms a id) →
  NoDup (socket_rooms (Registry.joins id rs a) id).
Proof.
  revert a. induction rs as [|r0 rs IH]; intros a Ha; [done|].
  rewrite joins_cons. apply IH.
  rewrite socket_rooms_socket_join, decide_True by done.
  by apply NoDup_set_add.
Qed.

Lemma joined_socket_join (id r : string) (a : Adapter.t) :
  joined (socket_join id r a) id r.
Proof.
  split; simpl; eexists; (split; [apply lookup_insert_eq|]);
    apply elem_of_set_add; by left.
Qed.

Lemma joined_socket_join_mono (id r r' : string) (a : Adapter.t) :
  joined a id r → joined (socket_join id r' a) id r.
Proof.
  intros [(m & Hm & Hid) (l & Hl & Hr)].
  destruct (decide (r = r')) as [->|Hne]; [apply joined_socket_join|].
  split; simpl.
  - exists m. by rewrite lookup_insert_ne.
  - eexists. split; [apply lookup_insert_eq|].
    apply elem_of_set_add. right. unfold socket_rooms. by rewrite Hl.
Qed.

Lemma joined_joins_mono (id r : string) (rs : list string) (a : Adapter.t) :
  joined a id r → joined (Registry.joins id rs a) id r.
Proof.
  revert a. induction rs as [|r0 rs IH]; intros a Ha; [done|].
  rewrite joins_cons. by apply IH, joined_socket_join_mono.
Qed.

Lemma joined_joins (id r : string) (rs : list string) (a : Adapter.t) :
  r ∈ rs → joined (Registry.joins id rs a) id r.
Proof.
  revert a. induction rs as [|r0 rs IH]; intros a Hr.
  - by apply elem_of_nil in Hr.
  - rewrite joins_cons. apply elem_of_cons in Hr as [->|Hr].
    + apply joined_joins_mono, joined_socket_join.
    + by apply IH.
Qed.

Lemma socket_join_joined (id r : string) (a : Adapter.t) :
  joined a id r → socket_join id r a = a.
Proof.
  intros [(m & Hm & Hid) (l & Hl & Hr)]. destruct a as [rms sds].
  unfold socket_join, members, socket_rooms. simpl in *.
  rewrite Hm, Hl. simpl. rewrite !set_add_elem by done.
  by rewrite !insert_id.
Qed.

Lemma elem_of_io_to (a : Adapter.t) (room ev : string)
    (p : option JS.value) (d : delivery) :
  d ∈ io_to a room ev p ↔ d = deliver (dest d) ev p ∧ dest d ∈ members a room.
Proof.
  unfold io_to. rewrite list_elem_of_fmap. split.
  - by intros (m & -> & Hm).
  - intros (Hd & Hm). by exists (dest d).
Qed.

(** C5, as the relay has it.  A new session [id] makes any finite
    sequence [rs] of [join(id, r)] calls.  Afterwards [roomsOf id]
    holds, once each, exactly the rooms of [rs] other than the room
    named [id]; the self-named room is not in it, so that neither the
    forwarding loop nor the counting loop of the disconnect handler,
    which range over [roomsOf id], ever visit it; joining any of the
    rooms again changes nothing and returns the same count; and a join
    of the self-named room changes nothing and returns that room's
    count. *)
Theorem roomsOf_joins (a : Adapter.t) (id : string) (rs : list string) :
  sids a !! id = None →
  let a' := Registry.joins id rs (socket_join id id a) in
  (∀ r, r ∈ Registry.roomsOf a' id ↔ r ∈ rs ∧ r ≠ id)
  ∧ NoDup (Registry.roomsOf a' id)
  ∧ (id ∉ Registry.roomsOf a' id)
  ∧ (∀ ev p d, d ∈ fan_out a' id ev p →
       ∃ r, r ∈ rs ∧ r ≠ id ∧ dest d ∈ members a' r ∧ dest d ≠ id)
  ∧ (∀ out d, on_disconnect a' id = Done a' out → d ∈ out →
       ∃ r, r ∈ rs ∧ r ≠ id ∧ dest d ∈ members a' r
            ∧ payload d = Some (count_msg (room_size a' r)))
  ∧ (∀ r, r ∈ rs ∨ r = id →
       id ∈ members a' r ∧ (Registry.join id r a' = (a', room_size a' r))).
Proof.
  intros Hnew a'.
  assert (socket_rooms (socket_join id id a) id = [id]) as Hfresh.
  { rewrite socket_rooms_socket_join, decide_True by done.
    unfold socket_rooms. rewrite Hnew. reflexivity. }
  assert (∀ r, r ∈ Registry.roomsOf a' id ↔ r ∈ rs ∧ r ≠ id) as Hrooms.
  { intros r. unfold Registry.roomsOf. rewrite elem_of_real_rooms.
    unfold a'. rewrite socket_rooms_joins, Hfresh, list_elem_of_singleton.
    tauto. }
  split_and!.
  - exact Hrooms.
  - unfold Registry.roomsOf, real_rooms. apply NoDup_filter.
    apply NoDup_socket_rooms_joins. rewrite Hfresh. apply NoDup_singleton.
  - rewrite Hrooms. tauto.
  - intros ev p d (_ & Hne & _ & r & Hr & Hm)%elem_of_fan_out.
    apply Hrooms in Hr as [Hr Hrid]. eauto.
  - intros out d [= <-] (r & Hd & Hr)%list_elem_of_bind.
    apply elem_of_io_to in Hd as [Hd Hm].
    apply Hrooms in Hr as [Hr Hrid]. exists r. rewrite Hd. by simpl.
  - intros r Hr. assert (joined a' id r) as Hj.
    { destruct Hr as [Hr| ->].
      - by apply joined_joins.
      - apply joined_joins_mono, joined_socket_join. }
    split.
    + destruct Hj as [(m & Hm & Hid) _]. unfold members. by rewrite Hm.
    + unfold Registry.join. by rewrite socket_join_joined.
Qed.

Lemma roomsOf_joins_witness :
  Registry.roomsOf
    (Registry.joins "A" ["ABCDEF"; "A"; "UVWXYZ"; "ABCDEF"]
       (socket_join "A" "A" Adapter.empty)) "A"
  = ["ABCDEF"; "UVWXYZ"]
  ∧ NoDup (Registry.roomsOf
             (Registry.joins "A" ["ABCDEF"; "A"; "UVWXYZ"; "ABCDEF"]
                (socket_join "A" "A" Adapter.empty)) "A").
Proof.
  split; [vm_compute; reflexivity|].
  apply (roomsOf_joins Adapter.empty "A" ["ABCDEF"; "A"; "UVWXYZ"; "ABCDEF"]).
  reflexivity.
Defined.

(** The claim C5 as the spec words it fails for a session that names its
    own id in a [join]: [roomsOf] stays empty, but the join handler
    counts the self-named room and addresses [room:count] to it. *)
Lemma on_join_own_id :
  let a := socket_join "A" "A" Adapter.empty in
  Registry.roomsOf a "A" = []
  ∧ Registry.join "A" "A" a = (a, 1)
  ∧ on_join a "A" (Fields (Some "A") (Some "Alice")) =
      Done a
        [deliver "A" "room:info"
           (Some (JS.Obj [("room", JS.Str "A"); ("userCount", JS.Num 1)]));
         deliver "A" "room:count" (Some (JS.Obj [("count", JS.Num 1)]))].
Proof. intros a. split_and!; vm_compute; reflexivity. Qed.

(** ** Bidirectional consistency *)

Lemma consistent_step (a a' : Adapter.t) (m : message)
    (out : list delivery) :
  consistent a → step a m = Done a' out → consistent a'.
Proof.
  intros Ha Hstep. destruct m as [s|s data|s data|s data|s|s];
    simpl in Hstep.
  - injection Hstep as <- _. by apply consistent_socket_join.
  - destruct data as [|room username]; [done|]. unfold on_join in Hstep.
    destruct (falsy room || falsy username);
      [by injection Hstep as <- _|].
    destruct room as [room|], username as [username|];
      injection Hstep as <- _; try done.
    by apply consistent_socket_join.
  - by injection Hstep as <- _.
  - by injection Hstep as <- _.
  - by injection Hstep as <- _.
  - rewrite close_silent in Hstep. injection Hstep as <- _.
    by apply consistent_delAll.
Qed.

Lemma consistent_perform (a a' : Adapter.t) (o : Registry.operation) :
  consistent a → Registry.perform a o = Some a' → consistent a'.
Proof.
  intros Ha Hop. destruct o as [m|id room]; simpl in Hop.
  - destruct (step a m) as [a1 out|] eqn:Hstep; [|done].
    injection Hop as <-. by eapply consistent_step.
  - injection Hop as <-. by apply consistent_leave.
Qed.

(** C6. Whatever sequence of operations the registry has gone through
    since the server started (connections, the five messages the relay
    handles, disconnections, and the registry's [leave]), each run to
    completion before the next, the adapter it is left in relates
    sessions and rooms consistently: [id] is in the member set of [room]
    exactly when [room] is in the room set of [id]. *)
Theorem consistent_always (os : list Registry.operation) (a : Adapter.t) :
  Registry.perform_all Adapter.empty os = Some a →
  ∀ id room, id ∈ members a room ↔ room ∈ socket_rooms a id.
Proof.
  intros Hrun. change (consistent a).
  assert (consistent Adapter.empty) as H0 by apply consistent_empty.
  revert Hrun H0. generalize Adapter.empty as a0.
  induction os as [|o os IH]; intros a0 Hrun H0; simpl in Hrun.
  - by injection Hrun as <-.
  - destruct (Registry.perform a0 o) as [a1|] eqn:Hop; [|done].
    eapply IH; [done|]. by eapply consistent_perform.
Qed.

Lemma consistent_always_witness :
  "B" ∈ members
          (delAll "A"
             (socket_join "B" "ABCDEF"
                (Registry.leave "A" "ABCDEF"
                   (socket_join "A" "ABCDEF"
                      (socket_join "B" "B"
                         (socket_join "A" "A" Adapter.empty)))).1))
          "ABCDEF"
  ↔ "ABCDEF" ∈ socket_rooms
                 (delAll "A"
                    (socket_join "B" "ABCDEF"
                       (Registry.leave "A" "ABCDEF"
                          (socket_join "A" "ABCDEF"
                             (socket_join "B" "B"
                                (socket_join "A" "A" Adapter.empty)))).1))
                 "B".
Proof.
  apply (consistent_always
           [Registry.Handle (Connect "A"); Registry.Handle (Connect "B");
            Registry.Handle (Join "A" Scenario.alice);
            Registry.Leave "A" "ABCDEF";
            Registry.Handle (Join "B" Scenario.bob);
            Registry.Handle (Disconnect "A")]).
  vm_compute. reflexivity.
Defined.

(** ** Join, then leave *)

Lemma room_size_leave (id room : string) (a : Adapter.t) :
  (Registry.leave id room a).2 =
    length (members (Registry.leave id room a).1 room).
Proof.
  unfold Registry.leave. case_decide; simpl; apply room_size_length.
Qed.

(** C7, as the registry has it.  When [id] is not yet a member of
    [room], [join] followed by [leave] brings the member count of
    [room] back to what it was before the join, and afterwards [room]
    is not among the rooms of [id].  [leave] changes nothing when [id]
    was not a member, and returns 0 when the room is left empty. *)
Theorem join_then_leave (a : Adapter.t) (id room : string) :
  id ∉ members a room →
  let a1 := (Registry.join id room a).1 in
  let a2 := (Registry.leave id room a1).1 in
  (Registry.join id room a).2 = S (room_size a room)
  ∧ (Registry.leave id room a1).2 = room_size a room
  ∧ room_size a2 room = room_size a room
  ∧ members a2 room = members a room
  ∧ (room ∉ socket_rooms a2 id)
  ∧ (room ∉ Registry.roomsOf a2 id)
  ∧ Registry.leave id room a = (a, room_size a room)
  ∧ (members a2 room = [] → (Registry.leave id room a1).2 = 0).
Proof.
  intros Hnew a1 a2.
  assert (id ∈ members a1 room) as Hin1.
  { unfold a1. simpl. rewrite members_socket_join, decide_True by done.
    apply elem_of_set_add. by left. }
  assert (members a2 room = members a room) as Hback.
  { unfold a2. rewrite members_leave, decide_True by done.
    unfold a1. simpl. rewrite members_socket_join, decide_True by done.
    by apply set_delete_add_new. }
  assert (room ∉ socket_rooms a2 id) as Hgone.
  { unfold a2. rewrite socket_rooms_leave, decide_True by done.
    rewrite elem_of_set_delete. by intros [? _]. }
  split_and!.
  - unfold Registry.join. simpl. rewrite !room_size_length.
    rewrite members_socket_join, decide_True by done.
    unfold JS.set_add. rewrite decide_False by done.
    rewrite length_app. simpl. lia.
  - rewrite room_size_leave. fold a2. by rewrite Hback, room_size_length.
  - by rewrite !room_size_length, Hback.
  - exact Hback.
  - exact Hgone.
  - unfold Registry.roomsOf. rewrite elem_of_real_rooms. tauto.
  - unfold Registry.leave. by rewrite decide_False.
  - intros Hempty. rewrite room_size_leave. fold a2. by rewrite Hempty.
Qed.

Lemma join_then_leave_witness :
  (Registry.leave "B" "ABCDEF"
     (Registry.join "B" "ABCDEF"
        (socket_join "A" "ABCDEF" (socket_join "A" "A" Adapter.empty))).1).2
  = room_size (socket_join "A" "ABCDEF" (socket_join "A" "A" Adapter.empty))
      "ABCDEF".
Proof.
  apply (join_then_leave
           (socket_join "A" "ABCDEF" (socket_join "A" "A" Adapter.empty))
           "B" "ABCDEF").
  vm_compute. intros Hin%list_elem_of_In. simpl in Hin. naive_solver.
Defined.

(** The claim C7 as the spec words it fails when the session is already
    a member: the join changes nothing, and the leave that follows takes
    the count one below what it was before the join. *)
Lemma join_then_leave_member :
  let a := socket_join "A" "ABCDEF" (socket_join "A" "A" Adapter.empty) in
  "A" ∈ members a "ABCDEF"
  ∧ room_size a "ABCDEF" = 1
  ∧ (Registry.join "A" "ABCDEF" a).2 = 1
  ∧ (Registry.leave "A" "ABCDEF" (Registry.join "A" "ABCDEF" a).1).2 = 0
  ∧ (Registry.leave "A" "ABCDEF" (Registry.join "A" "ABCDEF" a).1).2
      ≠ room_size a "ABCDEF".
Proof.
  intros a. split_and!; try (vm_compute; reflexivity).
  - vm_compute. apply list_elem_of_In. simpl. tauto.
  - vm_compute. discriminate.
Qed.

(** * Further properties of the relay *)

Import Trace.

(** ** Runs *)

Lemma run_app (ms1 ms2 : list message) (a : Adapter.t) :
  run a (ms1 ++ ms2) = a' ← run a ms1; run a' ms2.
Proof.
  revert a. induction ms1 as [|m ms1 IH]; intros a; simpl; [done|].
  destruct (step a m); [apply IH | done].
Qed.

Lemma run_consistent (ms : list message) (a0 a : Adapter.t) :
  consistent a0 → run a0 ms = Some a → consistent a.
Proof.
  revert a0. induction ms as [|m ms IH]; intros a0 H0 Hrun; simpl in Hrun.
  - by injection Hrun as <-.
  - destruct (step a0 m) as [a1 out|] eqn:Hstep; [|done].
    eapply IH; [|done]. by eapply consistent_step.
Qed.

(** ** Tidy registries *)

Lemma set_add_not_nil (x : string) (s : list string) : JS.set_add x s ≠ [].
Proof.
  intros Hnil. assert (x ∈ JS.set_add x s) as Hx
    by (apply elem_of_set_add; by left).
  rewrite Hnil in Hx. by apply elem_of_nil in Hx.
Qed.

Lemma NoDup_set_delete (x : string) (s : list string) :
  NoDup s → NoDup (JS.set_delete x s).
Proof. apply NoDup_filter. Qed.

Lemma tidy_empty : tidy Adapter.empty.
Proof.
  unfold tidy, members, socket_rooms. simpl. split_and!; intros x;
    rewrite lookup_empty; [apply NoDup_nil_2 | apply NoDup_nil_2 | done].
Qed.

Lemma tidy_socket_join (id room : string) (a : Adapter.t) :
  tidy a → tidy (socket_join id room a).
Proof.
  intros (Hm & Hs & He). split_and!.
  - intros r. rewrite members_socket_join.
    case_decide; [by apply NoDup_set_add | done].
  - intros s. rewrite socket_rooms_socket_join.
    case_decide; [by apply NoDup_set_add | done].
  - intros r. simpl. destruct (decide (r = room)) as [->|Hne].
    + rewrite lookup_insert_eq. intros [= Hnil]. by apply set_add_not_nil in Hnil.
    + by rewrite lookup_insert_ne.
Qed.

Lemma del_member_not_nil (id room : string)
    (rs : gmap string (list string)) :
  (∀ r, rs !! r ≠ Some []) → ∀ r, del_member id room rs !! r ≠ Some [].
Proof.
  intros Hrs r. unfold del_member.
  destruct (rs !! room) as [m|] eqn:Hroom; [|done].
  destruct (JS.set_delete id m) as [|x m'] eqn:Hd.
  - destruct (decide (r = room)) as [->|Hne].
    + by rewrite lookup_delete_eq.
    + by rewrite lookup_delete_ne.
  - destruct (decide (r = room)) as [->|Hne].
    + by rewrite lookup_insert_eq.
    + by rewrite lookup_insert_ne.
Qed.

Lemma del_members_not_nil (id : string) (joined : list string)
    (rs : gmap string (list string)) :
  (∀ r, rs !! r ≠ Some []) →
  ∀ r, foldl (λ rs room, del_member id room rs) rs joined !! r ≠ Some [].
Proof.
  revert rs. induction joined as [|room joined IH]; intros rs Hrs; [done|].
  cbn [foldl]. by apply IH, del_member_not_nil.
Qed.

Lemma tidy_delAll (id : string) (a : Adapter.t) :
  tidy a → tidy (delAll id a).
Proof.
  intros (Hm & Hs & He). split_and!.
  - intros r. rewrite members_delAll.
    case_decide; [by apply NoDup_set_delete | done].
  - intros s. rewrite socket_rooms_delAll.
    case_decide; [apply NoDup_nil_2 | done].
  - unfold delAll. destruct (sids a !! id); [|done]. simpl.
    by apply del_members_not_nil.
Qed.

Lemma tidy_step (a a' : Adapter.t) (m : message) (out : list delivery) :
  tidy a → step a m = Done a' out → tidy a'.
Proof.
  intros Ha Hstep. destruct m as [s|s data|s data|s data|s|s];
    simpl in Hstep.
  - injection Hstep as <- _. by apply tidy_socket_join.
  - destruct data as [|room username]; [done|]. unfold on_join in Hstep.
    destruct (falsy room || falsy username);
      [by injection Hstep as <- _|].
    destruct room as [room|], username as [username|];
      injection Hstep as <- _; try done.
    by apply tidy_socket_join.
  - by injection Hstep as <- _.
  - by injection Hstep as <- _.
  - by injection Hstep as <- _.
  - rewrite close_silent in Hstep. injection Hstep as <- _.
    by apply tidy_delAll.
Qed.

Lemma run_tidy (ms : list message) (a0 a : Adapter.t) :
  tidy a0 → run a0 ms = Some a → tidy a.
Proof.
  revert a0. induction ms as [|m ms IH]; intros a0 H0 Hrun; simpl in Hrun.
  - by injection Hrun as <-.
  - destruct (step a0 m) as [a1 out|] eqn:Hstep; [|done].
    eapply IH; [|done]. by eapply tidy_step.
Qed.

(** X2. Whatever the relay has handled since it started, no session is
    in a room twice and no room is kept without members: the count of a
    room is the number of different sessions in it, and it is 0 exactly
    for the rooms the registry does not have. *)
Theorem registry_counts_sessions (ms : list message) (a : Adapter.t)
    (room : string) :
  run Adapter.empty ms = Some a →
  NoDup (members a room)
  ∧ room_size a room = length (members a room)
  ∧ (∀ id, id ∈ members a room ↔ room ∈ socket_rooms a id)
  ∧ (∀ id, NoDup (socket_rooms a id))
  ∧ (room_size a room = 0 ↔ rooms a !! room = None).
Proof.
  intros Hrun.
  pose proof (run_tidy ms _ a tidy_empty Hrun) as (Hm & Hs & He).
  pose proof (run_consistent ms _ a consistent_empty Hrun) as Hc.
  split_and!; [done | apply room_size_length | by intros id | done |].
  unfold room_size. specialize (He room).
  destruct (rooms a !! room) as [[|x m]|]; simpl; naive_solver.
Qed.

Lemma registry_counts_sessions_witness :
  ∃ a, run Adapter.empty Scenario.two_rooms = Some a
  ∧ NoDup (members a "UVWXYZ") ∧ room_size a "UVWXYZ" = 2.
Proof.
  destruct (run Adapter.empty Scenario.two_rooms) as [a|] eqn:Hrun;
    [|by vm_compute in Hrun].
  exists a. split; [done|].
  destruct (registry_counts_sessions Scenario.two_rooms a "UVWXYZ" Hrun)
    as (Hnd & Hsize & _).
  split; [done|].
  vm_compute in Hrun. injection Hrun as <-. vm_compute. reflexivity.
Defined.

(** ** State and clear *)

(** X3. A [sound:state] message leaves the registry as it was and goes
    out, its payload as it came when there is one and [null] when there
    is none, to every other session in every real room of the sender
    that is not in the room named after the sender's id, to no session
    that shares no real room with the sender, and never to the
    sender. *)
Theorem on_state_recipients (a : Adapter.t) (id : string) (data : JS.value) :
  ∃ out, on_state a id data = Done a out
  ∧ (∀ room m, room ∈ real_rooms a id → m ∈ members a room → m ≠ id →
       m ∉ members a id →
       deliver m "sound:state" (Some (JS.wire data)) ∈ out)
  ∧ (∀ d, d ∈ out →
       event d = "sound:state" ∧ payload d = Some (JS.wire data)
       ∧ dest d ≠ id ∧ (dest d ∉ members a id) ∧
       ∃ room, room ∈ real_rooms a id ∧ dest d ∈ members a room)
  ∧ (JS.defined data = true → JS.wire data = data)
  ∧ (data = JS.Undefined → JS.wire data = JS.Null).
Proof.
  eexists. split; [reflexivity|]. split_and!.
  - intros room m Hroom Hm Hne Hown. apply elem_of_fan_out. simpl. eauto 10.
  - intros d (Hd & Hne & Hown & Hroom)%elem_of_fan_out. rewrite Hd.
    simpl. eauto.
  - apply wire_defined.
  - by intros ->.
Qed.

(** X4. A [canvas:clear] message leaves the registry as it was and goes
    out, without a payload, to every other session in every real room
    of the sender that is not in the room named after the sender's id,
    to no session that shares no real room with the sender, and never
    to the sender. *)
Theorem on_clear_recipients (a : Adapter.t) (id : string) :
  ∃ out, on_clear a id = Done a out
  ∧ (∀ room m, room ∈ real_rooms a id → m ∈ members a room → m ≠ id →
       m ∉ members a id →
       deliver m "canvas:clear" None ∈ out)
  ∧ (∀ d, d ∈ out →
       event d = "canvas:clear" ∧ payload d = None
       ∧ dest d ≠ id ∧ (dest d ∉ members a id) ∧
       ∃ room, room ∈ real_rooms a id ∧ dest d ∈ members a room).
Proof.
  eexists. split; [reflexivity|]. split.
  - intros room m Hroom Hm Hne Hown. apply elem_of_fan_out. simpl. eauto 10.
  - intros d (Hd & Hne & Hown & Hroom)%elem_of_fan_out. rewrite Hd.
    simpl. eauto.
Qed.

(** ** One copy per shared room *)

Lemma copies_none (m : string) (out : list delivery) :
  (∀ d, d ∈ out → dest d ≠ m) → copies m out = 0.
Proof.
  unfold copies. induction out as [|d out IH]; intros Hout; [done|].
  rewrite filter_cons_False by (apply Hout; left).
  apply IH. intros d' Hd'. apply Hout. by right.
Qed.

Lemma copies_app (m : string) (out1 out2 : list delivery) :
  copies m (out1 ++ out2) = copies m out1 + copies m out2.
Proof. unfold copies. by rewrite filter_app, length_app. Qed.

Lemma copies_fmap (m ev : string) (p : option JS.value) (l : list string) :
  copies m ((λ s, deliver s ev p) <$> l) = length (filter (λ s, s = m) l).
Proof.
  unfold copies. induction l as [|s l IH]; [done|].
  rewrite fmap_cons. destruct (decide (s = m)) as [->|Hne].
  - rewrite !filter_cons_True by done. simpl. by rewrite IH.
  - by rewrite !filter_cons_False by done.
Qed.

Lemma NoDup_count (m : string) (l : list string) :
  NoDup l →
  length (filter (λ s, s = m) l) = if decide (m ∈ l) then 1 else 0.
Proof.
  induction 1 as [|s l Hs Hl IH]; [done|].
  destruct (decide (s = m)) as [->|Hne].
  - rewrite filter_cons_True by done. simpl. rewrite IH.
    rewrite decide_False by done. by rewrite decide_True by left.
  - rewrite filter_cons_False by done. rewrite IH.
    destruct (decide (m ∈ l)) as [Hin|Hnin].
    + by rewrite decide_True by by right.
    + rewrite decide_False; [done|]. intros [?|?]%elem_of_cons; by subst.
Qed.

Lemma copies_socket_to (a : Adapter.t) (id room ev m : string)
    (p : option JS.value) :
  NoDup (members a room) → m ≠ id → m ∉ members a id →
  copies m (socket_to a id room ev p) =
    if decide (m ∈ members a room) then 1 else 0.
Proof.
  intros Hnd Hne Hown. unfold socket_to. rewrite copies_fmap.
  rewrite NoDup_count by by apply NoDup_filter.
  destruct (decide (m ∈ members a room)) as [Hin|Hnin].
  - rewrite decide_True; [done|]. by apply list_elem_of_filter.
  - rewrite decide_False; [done|]. by intros [_ ?]%list_elem_of_filter.
Qed.

Lemma copies_fan_out (a : Adapter.t) (id ev m : string)
    (p : option JS.value) :
  (∀ room, NoDup (members a room)) → m ≠ id → m ∉ members a id →
  copies m (fan_out a id ev p) =
    length (filter (λ room, m ∈ members a room) (real_rooms a id)).
Proof.
  intros Hnd Hne Hown. unfold fan_out.
  induction (real_rooms a id) as [|room l IH]; [done|].
  cbn [mbind list_bind]. rewrite copies_app, IH, copies_socket_to by done.
  destruct (decide (m ∈ members a room)).
  - by rewrite filter_cons_True.
  - by rewrite filter_cons_False.
Qed.

(** X5. In any state the relay can be in, a session other than the
    sender receives a stroke once for every real room of the sender it
    is in, twice when sender and receiver share two rooms, unless it is
    in the room named after the sender's id: then it receives none, as
    the sender itself. *)
Theorem on_stroke_copies (ms : list message) (a : Adapter.t)
    (id m : string) (data : JS.value) :
  run Adapter.empty ms = Some a → m ≠ id →
  ∃ out, on_stroke a id data = Done a out
  ∧ copies m out
      = (if decide (m ∈ members a id) then 0
         else length (filter (λ room, m ∈ members a room)
                        (real_rooms a id)))
  ∧ copies id out = 0.
Proof.
  intros Hrun Hne.
  pose proof (run_tidy ms _ a tidy_empty Hrun) as (Hm & _ & _).
  eexists. split; [reflexivity|]. split.
  - case_decide as Hown.
    + apply copies_none. intros d (_ & _ & Hd & _)%elem_of_fan_out.
      by intros <-.
    + by apply copies_fan_out.
  - apply copies_none. by intros d (_ & Hd & _)%elem_of_fan_out.
Qed.

Lemma on_stroke_copies_witness :
  ∃ a out,
    run Adapter.empty
      (Scenario.two_rooms
       ++ [Join "B" (Fields (Some "UVWXYZ") (Some "Bob"))]) = Some a
    ∧ on_stroke a "A" Scenario.stroke = Done a out
    ∧ copies "B" out = 2 ∧ copies "C" out = 1.
Proof.
  destruct (run Adapter.empty
              (Scenario.two_rooms
               ++ [Join "B" (Fields (Some "UVWXYZ") (Some "Bob"))]))
    as [a|] eqn:Hrun; [|by vm_compute in Hrun].
  destruct (on_stroke_copies _ a "A" "B" Scenario.stroke Hrun)
    as (out & Hout & HB & _); [done|].
  exists a, out. split; [done|]. split; [done|].
  vm_compute in Hrun. injection Hrun as <-.
  injection Hout as <-. split; vm_compute; reflexivity.
Defined.

(** ** Joining again *)

Lemma joined_of_member (a : Adapter.t) (id room : string) :
  consistent a → id ∈ members a room → joined a id room.
Proof.
  intros Hc Hin. pose proof Hin as Hr%Hc. split.
  - unfold members in Hin. destruct (rooms a !! room) as [m|]; [by exists m|].
    by apply elem_of_nil in Hin.
  - unfold socket_rooms in Hr. destruct (sids a !! id) as [l|]; [by exists l|].
    by apply elem_of_nil in Hr.
Qed.

(** X6. A session that is already in a room and sends [join] for it
    again, as the client does when its user changes name, is not
    counted twice: the registry stays as it is, the other members that
    are not in the room named after the sender's id are told the (new)
    username, and the count sent to the sender and to the room is the
    count the room already had. *)
Theorem on_join_again (ms : list message) (a : Adapter.t)
    (id room username : string) :
  run Adapter.empty ms = Some a →
  id ∈ members a room → room ≠ "" → username ≠ "" →
  on_join a id (Fields (Some room) (Some username)) =
    Done a
      (((λ m, deliver m "user:joined"
                (Some (JS.Obj [("username", JS.Str username);
                               ("id", JS.Str id)])))
          <$> filter (λ m, m ≠ id ∧ m ∉ members a id) (members a room))
       ++ [deliver id "room:info"
             (Some (JS.Obj [("room", JS.Str room);
                            ("userCount",
                             JS.Num (Z.of_nat (room_size a room)))]))]
       ++ ((λ m, deliver m "room:count"
                   (Some (JS.Obj [("count",
                                   JS.Num (Z.of_nat (room_size a room)))])))
             <$> members a room)).
Proof.
  intros Hrun Hin Hroom Huser.
  pose proof (run_consistent ms _ a consistent_empty Hrun) as Hc.
  rewrite on_join_accepted by done. cbn zeta.
  by rewrite (socket_join_joined id room a) by by apply joined_of_member.
Qed.

Lemma on_join_again_witness :
  ∃ a, run Adapter.empty Scenario.both_in = Some a
  ∧ on_join a "B" (Fields (Some "ABCDEF") (Some "Robert")) =
      Done a
        [deliver "A" "user:joined"
           (Some (JS.Obj [("username", JS.Str "Robert"); ("id", JS.Str "B")]));
         deliver "B" "room:info"
           (Some (JS.Obj [("room", JS.Str "ABCDEF");
                          ("userCount", JS.Num 2)]));
         deliver "A" "room:count" (Some (JS.Obj [("count", JS.Num 2)]));
         deliver "B" "room:count" (Some (JS.Obj [("count", JS.Num 2)]))].
Proof.
  destruct (run Adapter.empty Scenario.both_in) as [a|] eqn:Hrun;
    [|by vm_compute in Hrun].
  exists a. split; [done|].
  rewrite (on_join_again Scenario.both_in a "B" "ABCDEF" "Robert" Hrun).
  - vm_compute in Hrun. injection Hrun as <-. vm_compute. reflexivity.
  - vm_compute in Hrun. injection Hrun as <-. vm_compute.
    apply list_elem_of_In. simpl. tauto.
  - done.
  - done.
Defined.

(** ** Nothing leaves the sender's rooms *)

(** X7. In any state the relay can be in, whatever message it handles,
    every delivery it makes goes to a session that is, once the message
    is handled, in a room together with the sender. *)
Theorem deliveries_stay_in_rooms (ms : list message) (a a' : Adapter.t)
    (m : message) (out : list delivery) (d : delivery) :
  run Adapter.empty ms = Some a →
  step a m = Done a' out → d ∈ out →
  ∃ room, sender m ∈ members a' room ∧ dest d ∈ members a' room.
Proof.
  intros Hrun Hstep Hd.
  pose proof (run_consistent ms _ a consistent_empty Hrun) as Hc.
  assert (∀ s ev p, d ∈ fan_out a s ev p →
            ∃ room, s ∈ members a room ∧ dest d ∈ members a room) as Hfan.
  { intros s ev p (_ & _ & _ & room & Hroom & Hdest)%elem_of_fan_out.
    exists room. split; [|done].
    apply Hc. by apply elem_of_real_rooms in Hroom as [_ ?]. }
  destruct m as [s|s data|s data|s data|s|s]; simpl in *.
  - injection Hstep as <- <-. by apply elem_of_nil in Hd.
  - destruct data as [|room username]; [done|]. unfold on_join in Hstep.
    destruct (falsy room || falsy username).
    { injection Hstep as <- <-. by apply elem_of_nil in Hd. }
    destruct room as [room|], username as [username|];
      try (injection Hstep as <- <-; by apply elem_of_nil in Hd).
    injection Hstep as <- <-. exists room.
    assert (s ∈ members (socket_join s room a) room) as Hs.
    { rewrite members_socket_join, decide_True by done.
      apply elem_of_set_add. by left. }
    split; [done|].
    apply elem_of_app in Hd as [Hd|Hd].
    { by apply elem_of_socket_to in Hd as (_ & ? & _). }
    apply elem_of_cons in Hd as [->|Hd]; [done|].
    by apply elem_of_io_to in Hd as (_ & ?).
  - injection Hstep as <- <-. eauto.
  - injection Hstep as <- <-. eauto.
  - injection Hstep as <- <-. eauto.
  - rewrite close_silent in Hstep. injection Hstep as <- <-.
    by apply elem_of_nil in Hd.
Qed.

Lemma deliveries_stay_in_rooms_witness :
  let a := socket_join "B" "ABCDEF"
             (socket_join "A" "ABCDEF"
                (socket_join "B" "B" (socket_join "A" "A" Adapter.empty))) in
  ∃ room, "B" ∈ members a room ∧ "A" ∈ members a room.
Proof.
  intros a.
  apply (deliveries_stay_in_rooms Scenario.both_in a a
           (Stroke "B" Scenario.stroke)
           (fan_out a "B" "sound:stroke" (Some Scenario.stroke))
           (deliver "A" "sound:stroke" (Some Scenario.stroke))).
  - vm_compute. reflexivity.
  - reflexivity.
  - vm_compute. apply list_elem_of_In. simpl. tauto.
Defined.

(** ** Sessions that keep to one room *)

Lemma step_joins_only (a a' : Adapter.t) (id room : string) (m : message)
    (out : list delivery) :
  step a m = Done a' out → joins_only id room m = true →
  (∀ r, r ∈ socket_rooms a id → r = id ∨ r = room) →
  ∀ r, r ∈ socket_rooms a' id → r = id ∨ r = room.
Proof.
  intros Hstep Hm Hold r.
  destruct m as [s|s data|s data|s data|s|s]; simpl in Hstep.
  - injection Hstep as <- _. rewrite socket_rooms_socket_join.
    case_decide; subst; rewrite ?elem_of_set_add; naive_solver.
  - destruct data as [|rm username]; [done|]. unfold on_join in Hstep.
    destruct (falsy rm || falsy username) eqn:Hf.
    { injection Hstep as <- _. apply Hold. }
    destruct rm as [rm|], username as [username|];
      try (injection Hstep as <- _; apply Hold).
    injection Hstep as <- _. rewrite socket_rooms_socket_join.
    case_decide; subst; [|apply Hold].
    simpl in Hm, Hf. rewrite bool_decide_eq_true_2 in Hm by done.
    apply orb_false_iff in Hf as [Hf1 Hf2]. rewrite Hf1, Hf2 in Hm.
    simpl in Hm. apply bool_decide_eq_true in Hm as ->.
    rewrite elem_of_set_add. naive_solver.
  - injection Hstep as <- _. apply Hold.
  - injection Hstep as <- _. apply Hold.
  - injection Hstep as <- _. apply Hold.
  - rewrite close_silent in Hstep. injection Hstep as <- _.
    rewrite socket_rooms_delAll. case_decide; [by intros ?%elem_of_nil|].
    apply Hold.
Qed.

Lemma run_joins_only (ms : list message) (a a' : Adapter.t)
    (id room : string) :
  run a ms = Some a' → forallb (joins_only id room) ms = true →
  (∀ r, r ∈ socket_rooms a id → r = id ∨ r = room) →
  ∀ r, r ∈ socket_rooms a' id → r = id ∨ r = room.
Proof.
  revert a. induction ms as [|m ms IH]; intros a Hrun Hms Ha; simpl in *.
  - by injection Hrun as <-.
  - apply andb_true_iff in Hms as [Hm Hms].
    destruct (step a m) as [a1 out|] eqn:Hstep; [|done].
    eapply IH; [done..|]. by eapply step_joins_only.
Qed.

Lemma NoDup_all_equal (r : string) (l : list string) :
  NoDup l → (∀ x, x ∈ l → x = r) → (length l ≤ 1)%nat.
Proof.
  intros Hnd Hall. destruct Hnd as [|x l Hx Hl]; [simpl; lia|].
  destruct l as [|y l]; [simpl; lia|]. exfalso. apply Hx.
  rewrite (Hall x) by left. rewrite (Hall y) by (right; left). left.
Qed.

(** X8. A session all of whose accepted joins name one and the same
    room, as those of the client do, reaches with its stroke, state and
    clear messages only other members of that room, and each of them at
    most once. *)
Theorem one_room_sender (ms : list message) (a : Adapter.t)
    (id room : string) (data : JS.value) (h : outcome) :
  run Adapter.empty ms = Some a →
  forallb (joins_only id room) ms = true →
  h ∈ [on_stroke a id data; on_state a id data; on_clear a id] →
  ∃ out, h = Done a out
  ∧ (∀ d, d ∈ out → dest d ∈ members a room ∧ dest d ≠ id)
  ∧ (∀ m, (copies m out ≤ 1)%nat).
Proof.
  intros Hrun Hms Hh.
  pose proof (run_tidy ms _ a tidy_empty Hrun) as (Hm & Hs & _).
  assert (∀ r, r ∈ real_rooms a id → r = room) as Hone.
  { intros r [Hne Hr]%elem_of_real_rooms.
    destruct (run_joins_only ms _ a id room Hrun Hms) with (r := r);
      try done.
    unfold socket_rooms. simpl. rewrite lookup_empty. simpl.
    by intros ? ?%elem_of_nil. }
  assert (length (real_rooms a id) ≤ 1)%nat as Hlen.
  { apply (NoDup_all_equal room); [|done]. by apply NoDup_filter. }
  assert (∀ ev p, (∀ d, d ∈ fan_out a id ev p →
                     dest d ∈ members a room ∧ dest d ≠ id)
                  ∧ (∀ m, (copies m (fan_out a id ev p) ≤ 1)%nat)) as Hfan.
  { intros ev p. split.
    - intros d (_ & Hne & _ & r & Hr & Hd)%elem_of_fan_out.
      by rewrite <- (Hone r Hr).
    - intros m. destruct (decide (m = id)) as [->|Hne].
      + rewrite copies_none; [lia|].
        by intros d (_ & Hd & _)%elem_of_fan_out.
      + destruct (decide (m ∈ members a id)) as [Hown|Hown].
        * rewrite copies_none; [lia|].
          intros d (_ & _ & Hd & _)%elem_of_fan_out. by intros <-.
        * rewrite copies_fan_out by done.
          etrans; [apply length_filter | done]. }
  repeat (apply elem_of_cons in Hh as [->|Hh]);
    [| | |by apply elem_of_nil in Hh];
    (eexists; split; [reflexivity | apply Hfan]).
Qed.

Lemma one_room_sender_witness :
  ∃ a out, run Adapter.empty Scenario.both_in = Some a
  ∧ on_stroke a "A" Scenario.stroke = Done a out
  ∧ ∀ m, (copies m out ≤ 1)%nat.
Proof.
  destruct (run Adapter.empty Scenario.both_in) as [a|] eqn:Hrun;
    [|by vm_compute in Hrun].
  destruct (one_room_sender Scenario.both_in a "A" "ABCDEF" Scenario.stroke
              (on_stroke a "A" Scenario.stroke) Hrun)
    as (out & Hout & _ & Hcopies).
  - vm_compute. reflexivity.
  - left.
  - by exists a, out.
Defined.

(** ** Leaving on disconnect *)

Lemma length_set_delete (x : string) (s : list string) :
  NoDup s →
  length (JS.set_delete x s) =
    length s - (if decide (x ∈ s) then 1 else 0).
Proof.
  unfold JS.set_delete. induction 1 as [|y s Hy Hs IH]; [done|].
  destruct (decide (y = x)) as [->|Hne].
  - rewrite filter_cons_False by naive_solver.
    rewrite decide_True by left. fold (JS.set_delete x s).
    rewrite set_delete_not_elem by done. simpl. lia.
  - rewrite filter_cons_True by done. simpl. rewrite IH.
    destruct (decide (x ∈ s)) as [Hin|Hnin].
    + rewrite decide_True by by right. destruct s; [by apply elem_of_nil in Hin|].
      simpl. lia.
    + rewrite decide_False; [lia|]. intros [?|?]%elem_of_cons; by subst.
Qed.

(** X9. When a session disconnects, in any state the relay can be in,
    the disconnect handler sends nothing, and the session is afterwards
    in no room: every room it was in has lost exactly this member and
    counts one less, a room it was alone in is gone from the registry,
    and the rooms of the other sessions are what they were. *)
Theorem close_leaves_rooms (ms : list message) (a : Adapter.t) (id : string) :
  run Adapter.empty ms = Some a →
  ∃ a', close a id = Done a' []
  ∧ socket_rooms a' id = []
  ∧ (∀ room, members a' room = filter (λ m, m ≠ id) (members a room))
  ∧ (∀ room, id ∉ members a' room)
  ∧ (∀ room, room_size a' room =
       room_size a room - (if decide (id ∈ members a room) then 1 else 0))
  ∧ (∀ room, members a room = [id] → rooms a' !! room = None)
  ∧ (∀ s, s ≠ id → socket_rooms a' s = socket_rooms a s).
Proof.
  intros Hrun.
  pose proof (run_tidy ms _ a tidy_empty Hrun) as Ht.
  pose proof (run_consistent ms _ a consistent_empty Hrun) as Hc.
  pose proof (tidy_delAll id a Ht) as (_ & _ & He').
  destruct Ht as (Hm & _ & _).
  assert (∀ room, members (delAll id a) room = JS.set_delete id (members a room))
    as Hmem.
  { intros room. rewrite members_delAll. case_decide as Hr; [done|].
    rewrite set_delete_not_elem; [done|]. by intros Hin%Hc. }
  exists (delAll id a). split_and!.
  - apply close_silent.
  - by rewrite socket_rooms_delAll, decide_True.
  - exact Hmem.
  - intros room. rewrite Hmem, elem_of_set_delete. by intros [? _].
  - intros room. rewrite !room_size_length, Hmem. by apply length_set_delete.
  - intros room Halone. specialize (Hmem room). rewrite Halone in Hmem.
    unfold JS.set_delete in Hmem. rewrite filter_cons_False in Hmem by naive_solver.
    rewrite filter_nil in Hmem. unfold members in Hmem.
    specialize (He' room). destruct (rooms (delAll id a) !! room); [|done].
    simpl in Hmem. by subst.
  - intros s Hs. by rewrite socket_rooms_delAll, decide_False.
Qed.

Lemma close_leaves_rooms_witness :
  ∃ a a', run Adapter.empty Scenario.two_rooms = Some a
  ∧ close a "C" = Done a' []
  ∧ members a' "UVWXYZ" = ["A"] ∧ room_size a' "UVWXYZ" = 1.
Proof.
  destruct (run Adapter.empty Scenario.two_rooms) as [a|] eqn:Hrun;
    [|by vm_compute in Hrun].
  destruct (close_leaves_rooms Scenario.two_rooms a "C" Hrun)
    as (a' & Hclose & _).
  exists a, a'. split; [done|]. split; [done|].
  rewrite close_silent in Hclose. injection Hclose as <-.
  vm_compute in Hrun. injection Hrun as <-. split; vm_compute; reflexivity.
Defined.

(** * Properties of the client *)

(** ** Room codes *)

Lemma upper_base36 (c : Ascii.ascii) :
  Client.is_digit c || Client.is_lower c = true →
  Client.is_digit (Client.upper c) || Client.is_upper (Client.upper c) = true.
Proof.
  destruct c as [[] [] [] [] [] [] [] []]; vm_compute; intros H;
    first [reflexivity | discriminate H].
Qed.

Lemma length_toUpperCase (s : string) :
  String.length (Client.toUpperCase s) = String.length s.
Proof. induction s as [|c s IH]; simpl; [done | by rewrite IH]. Qed.

Lemma length_substring_0 (m : nat) (s : string) :
  String.length (String.substring 0 m s) = m `min` String.length s.
Proof.
  revert s. induction m as [|m IH]; intros [|c s]; simpl; try done.
  by rewrite IH.
Qed.

Lemma substring_0_nil (m : nat) (s : string) :
  String.substring 0 (S m) s = "" ↔ s = "".
Proof. by destruct s. Qed.

Lemma base36_substring_0 (m : nat) (s : string) :
  Client.base36 s = true →
  Client.upper_alnum (Client.toUpperCase (String.substring 0 m s)) = true.
Proof.
  unfold Client.base36, Client.upper_alnum. revert s.
  induction m as [|m IH]; intros [|c s]; simpl; try done.
  intros [Hc Hs]%andb_true_iff. by rewrite upper_base36, IH.
Qed.

Lemma toUpperCase_nil (s : string) : Client.toUpperCase s = "" ↔ s = "".
Proof. by destruct s. Qed.

Lemma upper_digit (c : Ascii.ascii) :
  Client.is_digit c = true → Client.upper c = c.
Proof.
  destruct c as [[] [] [] [] [] [] [] []]; vm_compute; intros H;
    first [reflexivity | discriminate H].
Qed.

Lemma upper_lower (c : Ascii.ascii) :
  Client.is_lower c = true →
  Ascii.nat_of_ascii (Client.upper c) = Ascii.nat_of_ascii c - 32.
Proof.
  destruct c as [[] [] [] [] [] [] [] []]; vm_compute; intros H;
    first [reflexivity | discriminate H].
Qed.

Lemma get_toUpperCase (i : nat) (s : string) :
  String.get i (Client.toUpperCase s) = Client.upper <$> String.get i s.
Proof.
  revert i. induction s as [|c s IH]; intros [|i]; simpl; done.
Qed.

Lemma get_substring_0 (i m : nat) (s : string) :
  i < m → String.get i (String.substring 0 m s) = String.get i s.
Proof.
  revert i s. induction m as [|m IH]; intros i s Him; [lia|].
  destruct s as [|c s]; [done|]. destruct i as [|i]; [done|].
  simpl. apply IH. lia.
Qed.

(** X10. [generateRoomCode] applied to the base-36 text of a random
    number, [0.] followed by digits, gives the first six digits in upper
    case: the code is six long when there are six digits or more,
    shorter when there are fewer, and empty when there is none; its
    character at each place is the digit at that place when this is a
    decimal digit, and the capital of it, 32 below in ASCII, when it is
    a small letter; so it is made of decimal digits and capitals. *)
Theorem generateRoomCode_shape (digits : string) :
  Client.base36 digits = true →
  String.length (Client.generateRoomCode (String.append "0." digits))
    = 6 `min` String.length digits
  ∧ (∀ i c, i < 6 → String.get i digits = Some c →
       ∃ C, String.get i
              (Client.generateRoomCode (String.append "0." digits)) = Some C
       ∧ (Client.is_digit c = true → C = c)
       ∧ (Client.is_lower c = true →
            Client.is_upper C = true
            ∧ Ascii.nat_of_ascii C = Ascii.nat_of_ascii c - 32))
  ∧ Client.upper_alnum
      (Client.generateRoomCode (String.append "0." digits)) = true
  ∧ (Client.generateRoomCode (String.append "0." digits) = ""
     ↔ digits = "").
Proof.
  intros Hd. unfold Client.generateRoomCode, Client.substring.
  change (String.substring (2 `min` 8) (2 `max` 8 - 2 `min` 8)
            (String.append "0." digits))
    with (String.substring 0 6 digits).
  split_and!.
  - by rewrite length_toUpperCase, length_substring_0.
  - intros i c Hi Hc. exists (Client.upper c).
    rewrite get_toUpperCase, get_substring_0, Hc by done.
    split; [done|]. split; [apply upper_digit|].
    intros Hlow. split; [|by apply upper_lower].
    pose proof (upper_base36 c) as Hup. rewrite Hlow, orb_true_r in Hup.
    specialize (Hup eq_refl). apply orb_true_iff in Hup as [Hdig|Hup];
      [|done].
    exfalso. revert Hlow Hdig. clear.
    destruct c as [[] [] [] [] [] [] [] []]; vm_compute; congruence.
  - by apply base36_substring_0.
  - by rewrite toUpperCase_nil, substring_0_nil.
Qed.

Lemma generateRoomCode_shape_witness :
  Client.generateRoomCode "0.4fzyo82mvyr" = "4FZYO8"
  ∧ String.length (Client.generateRoomCode "0.4fzyo82mvyr") = 6
  ∧ String.length (Client.generateRoomCode "0.i") = 1.
Proof.
  split; [reflexivity|]. split.
  - apply (generateRoomCode_shape "4fzyo82mvyr"). reflexivity.
  - apply (generateRoomCode_shape "i"). reflexivity.
Defined.

(** ** The joins a page sends *)

Lemma or_else_not_nil (v : option string) (d : string) :
  d ≠ "" → Client.or_else v d ≠ "".
Proof.
  intros Hd. destruct v as [s|]; simpl; [|done]. by case_bool_decide.
Qed.

Lemma or_else_some (s d : string) :
  s ≠ "" → Client.or_else (Some s) d = s.
Proof. intros Hs. simpl. by rewrite bool_decide_eq_false_2. Qed.

Lemma initRoom_ok (b : Client.browser) (random36 : string) :
  Client.page_ok (Client.roomCode (Client.initRoom b random36).1)
    (Client.initRoom b random36).1 (Client.initRoom b random36).2.
Proof.
  unfold Client.page_ok, Client.initRoom. simpl. split_and!; try done.
  - by apply or_else_not_nil.
  - destruct b as [[s|] stored]; simpl; [|done].
    by case_bool_decide; simpl; subst.
  - destruct b as [[s|] stored]; simpl; [|done].
    by case_bool_decide.
Qed.

Lemma on_username_click_ok (trim : string → string) (room : string)
    (c c' : Client.t) (b b' : Client.browser) (answer : option string)
    (sent : option join_data) :
  Client.page_ok room c b →
  Client.on_username_click trim c b answer = (c', b', sent) →
  Client.page_ok room c' b'
  ∧ ∀ j, sent = Some j → ∃ u, j = Fields (Some room) (Some u) ∧ u ≠ "".
Proof.
  intros (Hroom & Huser & Hurl & Hstored) Hclick.
  unfold Client.on_username_click in Hclick.
  destruct answer as [newUsername|]; simpl in Hclick.
  - destruct (bool_decide (newUsername = "")); simpl in Hclick.
    { injection Hclick as <- <- <-. by repeat split. }
    case_bool_decide as Htrim; simpl in Hclick.
    { injection Hclick as <- <- <-. by repeat split. }
    injection Hclick as <- <- <-. split.
    + unfold Client.page_ok. simpl. split_and!; try done.
      by rewrite bool_decide_eq_false_2.
    + intros j [= <-]. rewrite Hroom. eauto.
  - injection Hclick as <- <- <-. by repeat split.
Qed.

Lemma clicks_ok (trim : string → string) (room : string)
    (answers : list (option string)) (c c' : Client.t)
    (b b' : Client.browser) (sent : list join_data) :
  Client.page_ok room c b →
  Client.clicks trim c b answers = (c', b', sent) →
  Client.page_ok room c' b'
  ∧ ∀ j, j ∈ sent → ∃ u, j = Fields (Some room) (Some u) ∧ u ≠ "".
Proof.
  revert c b sent. induction answers as [|answer answers IH];
    intros c b sent Hok Hclicks; simpl in Hclicks.
  - injection Hclicks as <- <- <-. split; [done|].
    by intros j ?%elem_of_nil.
  - destruct (Client.on_username_click trim c b answer)
      as [[c1 b1] sent1] eqn:Hclick.
    destruct (Client.clicks trim c1 b1 answers) as [[c2 b2] rest] eqn:Hrest.
    injection Hclicks as <- <- <-.
    destruct (on_username_click_ok trim room c c1 b b1 answer sent1 Hok Hclick)
      as [Hok1 Hsent1].
    destruct (IH c1 b1 rest Hok1 Hrest) as [Hok2 Hsent2].
    split; [done|]. intros j [Hj|Hj]%elem_of_app; [|by apply Hsent2].
    apply Hsent1. destruct sent1; simpl in Hj.
    + apply list_elem_of_singleton in Hj. by subst.
    + by apply elem_of_nil in Hj.
Qed.

(** X11. A page, from its load through any number of username prompts,
    keeps one room code and a non-empty username, so that every [join] it
    sends, on connect or after a prompt, names that room with a non-empty
    username.  The relay never throws on such a [join]: it registers
    the session in the room when the room code is not empty, and drops
    the message when it is. *)
Theorem page_joins (trim : string → string) (b b' : Client.browser)
    (random36 : string) (answers : list (option string))
    (c : Client.t) (sent : list join_data) :
  Client.clicks trim (Client.initRoom b random36).1
    (Client.initRoom b random36).2 answers = (c, b', sent) →
  let room := Client.roomCode (Client.initRoom b random36).1 in
  Client.roomCode c = room
  ∧ Client.username c ≠ ""
  ∧ ∀ j, j ∈ Client.on_connect c :: sent →
      (∃ u, j = Fields (Some room) (Some u) ∧ u ≠ "")
      ∧ ∀ a id,
          if decide (room = "") then on_join a id j = Done a []
          else ∃ out, on_join a id j = Done (socket_join id room a) out
                      ∧ id ∈ members (socket_join id room a) room.
Proof.
  intros Hclicks room.
  destruct (clicks_ok trim room answers _ c _ b' sent
              (initRoom_ok b random36) Hclicks)
    as [(Hroom & Huser & _) Hsent].
  split; [done|]. split; [done|]. intros j Hj.
  assert (∃ u, j = Fields (Some room) (Some u) ∧ u ≠ "") as (u & -> & Hu).
  { apply elem_of_cons in Hj as [->|Hj]; [|by apply Hsent].
    unfold Client.on_connect. rewrite Hroom. eauto. }
  split; [eauto|]. intros a id. case_decide as Hr.
  - apply on_join_dropped. simpl. by rewrite bool_decide_eq_true_2.
  - eexists. split; [by apply on_join_accepted|].
    rewrite members_socket_join, decide_True by done.
    apply elem_of_set_add. by left.
Qed.

Lemma page_joins_witness :
  on_join Adapter.empty "A" (Fields (Some "ABCDEF") (Some "Alice")) =
    Done (socket_join "A" "ABCDEF" Adapter.empty)
      [deliver "A" "room:info"
         (Some (JS.Obj [("room", JS.Str "ABCDEF"); ("userCount", JS.Num 1)]));
       deliver "A" "room:count" (Some (JS.Obj [("count", JS.Num 1)]))].
Proof.
  destruct (page_joins (λ s, s)
              {| Client.url_room := Some "ABCDEF";
                 Client.stored_username := None |}
              {| Client.url_room := Some "ABCDEF";
                 Client.stored_username := Some "Alice" |}
              "0.4fzyo82mvyr" [None; Some "Alice"]
              {| Client.roomCode := "ABCDEF"; Client.username := "Alice" |}
              [Fields (Some "ABCDEF") (Some "Alice")] eq_refl)
    as (_ & _ & Hsent).
  destruct (Hsent (Fields (Some "ABCDEF") (Some "Alice"))) as [_ Hrelay].
  { left. }
  destruct (Hrelay Adapter.empty "A") as (out & Hout & _).
  rewrite Hout. vm_compute in Hout. by injection Hout as <-.
Defined.

(** X12. Loading the page again, once it has a room code, brings back
    the same room code and the same username, whatever prompts were
    answered in between: the URL and [localStorage] hold what the sketch
    holds. *)
Theorem page_reload (trim : string → string) (b b' : Client.browser)
    (random36 again36 : string) (answers : list (option string))
    (c : Client.t) (sent : list join_data) :
  Client.clicks trim (Client.initRoom b random36).1
    (Client.initRoom b random36).2 answers = (c, b', sent) →
  Client.roomCode c ≠ "" →
  Client.initRoom b' again36 = (c, b').
Proof.
  intros Hclicks Hne.
  destruct (clicks_ok trim _ answers _ c _ b' sent
              (initRoom_ok b random36) Hclicks)
    as [(Hroom & Huser & Hurl & Hstored) _].
  rewrite <- Hroom in Hurl. unfold Client.initRoom. rewrite Hurl, Hstored.
  simpl. rewrite !bool_decide_eq_false_2 by done. by destruct c.
Qed.

Lemma page_reload_witness :
  Client.initRoom
    {| Client.url_room := Some "4FZYO8";
       Client.stored_username := Some "Alice" |} "0.zzzzzz"
  = ({| Client.roomCode := "4FZYO8"; Client.username := "Alice" |},
     {| Client.url_room := Some "4FZYO8";
        Client.stored_username := Some "Alice" |}).
Proof.
  apply (page_reload (λ s, s)
           {| Client.url_room := None; Client.stored_username := None |}
           _ "0.4fzyo82mvyr" "0.zzzzzz" [Some "Alice"] _
           [Fields (Some "4FZYO8") (Some "Alice")]).
  - reflexivity.
  - done.
Defined.

(** ** Stroke payloads *)

Lemma get_set_prop (k k' : string) (v : JS.value)
    (o : list (string * JS.value)) :
  Client.get_prop k (Client.set_prop k' v o) =
    if decide (k' = k) then Some v else Client.get_prop k o.
Proof.
  induction o as [|[k0 v0] o IH]; simpl.
  - done.
  - destruct (decide (k0 = k')) as [->|Hne]; simpl.
    + by repeat case_decide.
    + rewrite IH. repeat case_decide; by subst.
Qed.

Lemma get_prop_app (k : string) (o1 o2 : list (string * JS.value)) :
  Client.get_prop k (o1 ++ o2) =
    match Client.get_prop k o1 with
    | Some v => Some v
    | None => Client.get_prop k o2
    end.
Proof.
  induction o1 as [|[k0 v0] o1 IH]; simpl; [done|]. by case_decide.
Qed.

(** A property of an object literal has the value written last. *)
Lemma get_prop_written (k : string) (ps o : list (string * JS.value)) :
  Client.get_prop k (foldl (λ o kv, Client.set_prop kv.1 kv.2 o) o ps) =
    match Client.get_prop k (reverse ps) with
    | Some v => Some v
    | None => Client.get_prop k o
    end.
Proof.
  revert o. induction ps as [|[k0 v0] ps IH]; intros o; [done|].
  cbn [foldl]. rewrite IH, reverse_cons, get_prop_app, get_set_prop.
  simpl. destruct (Client.get_prop k (reverse ps)); [done|].
  by case_decide.
Qed.

Lemma get_prop_None (k : string) (o : list (string * JS.value)) :
  Client.get_prop k o = None ↔ k ∉ o.*1.
Proof.
  induction o as [|[k0 v0] o IH]; simpl.
  - split; [intros _; apply not_elem_of_nil | done].
  - rewrite not_elem_of_cons. case_decide; subst; naive_solver.
Qed.

Lemma get_prop_Some (k : string) (v : JS.value)
    (o : list (string * JS.value)) :
  NoDup o.*1 → Client.get_prop k o = Some v ↔ (k, v) ∈ o.
Proof.
  induction o as [|[k0 v0] o IH]; simpl; intros Hnd.
  - split; [done | by intros ?%elem_of_nil].
  - apply NoDup_cons in Hnd as [Hk0 Hnd]. rewrite elem_of_cons.
    case_decide as Hk; subst.
    + split; [intros [= ->]; by left|].
      intros [[= ->]|Hin]; [done|]. exfalso. apply Hk0.
      apply list_elem_of_fmap. by exists (k, v).
    + rewrite IH by done. naive_solver.
Qed.

Lemma get_prop_reverse (k : string) (o : list (string * JS.value)) :
  NoDup o.*1 → Client.get_prop k (reverse o) = Client.get_prop k o.
Proof.
  intros Hnd. destruct (Client.get_prop k o) as [v|] eqn:Hget.
  - apply get_prop_Some; [by rewrite fmap_reverse, reverse_Permutation|].
    apply elem_of_reverse. by apply get_prop_Some.
  - apply get_prop_None. rewrite fmap_reverse, elem_of_reverse.
    by apply get_prop_None.
Qed.

Lemma clean_spec (params : list (string * JS.value)) (k : string) :
  Client.clean params = true → k ∈ ["x"; "y"; "px"; "py"] →
  Client.get_prop k (reverse params) = None.
Proof.
  intros Hclean Hk. apply get_prop_None.
  rewrite fmap_reverse, elem_of_reverse. intros Hin.
  apply list_elem_of_fmap in Hin as ([k0 v0] & -> & Hin).
  unfold Client.clean in Hclean. rewrite forallb_forall in Hclean.
  apply list_elem_of_In, Hclean in Hin. simpl in Hin.
  by rewrite bool_decide_eq_true_2 in Hin.
Qed.

Lemma emitStroke_get (mode : string) (x y px py : JS.value)
    (params : list (string * JS.value)) (k : string) :
  Client.get_prop k
    (Client.object_literal
       ([("x", x); ("y", y); ("px", px); ("py", py)]
        ++ params ++ [("brushMode", JS.Str mode)])) =
    if decide (k = "brushMode") then Some (JS.Str mode)
    else match Client.get_prop k (reverse params) with
         | Some v => Some v
         | None =>
             Client.get_prop k [("py", py); ("px", px); ("y", y); ("x", x)]
         end.
Proof.
  unfold Client.object_literal.
  rewrite get_prop_written, !reverse_app, !get_prop_app.
  change (reverse [("brushMode", JS.Str mode)])
    with [("brushMode", JS.Str mode)].
  change (reverse [("x", x); ("y", y); ("px", px); ("py", py)])
    with [("py", py); ("px", px); ("y", y); ("x", x)].
  cbn [Client.get_prop].
  destruct (decide (k = "brushMode")) as [->|Hk].
  - by rewrite decide_True.
  - rewrite (decide_False (P := "brushMode" = k)) by done.
    destruct (Client.get_prop k (reverse params)); [done|].
    by repeat case_decide.
Qed.

Lemma emitStroke_clean (mode : string) (x y px py : JS.value)
    (params : list (string * JS.value)) :
  Client.clean params = true →
  Client.segment (Client.emitStroke mode x y px py params)
    = (Some (px, py), Some (x, y)).
Proof.
  intros Hclean. unfold Client.segment, Client.emitStroke.
  rewrite !emitStroke_get, !decide_False by done.
  rewrite !clean_spec by (done || (apply list_elem_of_In; simpl; tauto)).
  reflexivity.
Qed.

(** X13. The stroke payload built by [emitStroke] always carries the
    sender's current brush mode, even when [params] has a [brushMode]
    of its own; every other property of [params] is passed on with its
    value, and [x], [y], [px], [py] are those of the call unless
    [params] has properties of these names. *)
Theorem emitStroke_fields (mode : string) (x y px py : JS.value)
    (params : list (string * JS.value)) :
  NoDup params.*1 →
  ∃ o, Client.emitStroke mode x y px py params = JS.Obj o
  ∧ Client.get_prop "brushMode" o = Some (JS.Str mode)
  ∧ (∀ k v, k ≠ "brushMode" → (k, v) ∈ params →
       Client.get_prop k o = Some v)
  ∧ (∀ k, k ∉ ["x"; "y"; "px"; "py"; "brushMode"] →
       Client.get_prop k o = Client.get_prop k params)
  ∧ (Client.clean params = true →
       Client.get_prop "x" o = Some x ∧ Client.get_prop "y" o = Some y
       ∧ Client.get_prop "px" o = Some px
       ∧ Client.get_prop "py" o = Some py).
Proof.
  intros Hnd. eexists. split; [reflexivity|].
  pose proof (emitStroke_get mode x y px py params) as Hget.
  split_and!.
  - by rewrite Hget.
  - intros k v Hk Hin. rewrite Hget, decide_False by done.
    rewrite get_prop_reverse by done.
    by rewrite (proj2 (get_prop_Some k v params Hnd) Hin).
  - intros k Hk. rewrite Hget, get_prop_reverse by done.
    rewrite !not_elem_of_cons in Hk. destruct Hk as (?&?&?&?&?&_).
    rewrite decide_False by done. simpl.
    rewrite !decide_False by done. by destruct (Client.get_prop k params).
  - intros Hclean.
    split_and!; rewrite Hget, decide_False by done;
      (rewrite clean_spec;
        [reflexivity | done | apply list_elem_of_In; simpl; tauto]).
Qed.

Lemma emitStroke_fields_witness :
  ∃ o, Client.emitStroke "marker" (JS.Num 10) (JS.Num 20) (JS.Num 5)
         (JS.Num 15)
         [("size", JS.Num 30); ("r", JS.Num 100); ("g", JS.Num 180);
          ("b", JS.Num 220); ("brushMode", JS.Str "jitter")] = JS.Obj o
  ∧ Client.get_prop "brushMode" o = Some (JS.Str "marker").
Proof.
  destruct (emitStroke_fields "marker" (JS.Num 10) (JS.Num 20) (JS.Num 5)
              (JS.Num 15)
              [("size", JS.Num 30); ("r", JS.Num 100); ("g", JS.Num 180);
               ("b", JS.Num 220); ("brushMode", JS.Str "jitter")])
    as (o & Ho & Hmode & _).
  - apply (bool_decide_unpack _). vm_compute. exact I.
  - by exists o.
Defined.

(** ** Dragging *)

Lemma feed_all_connected (p : Client.pen) (drag : list Client.input) :
  forallb (λ i, negb (Client.is_press i) && Client.clean_input i) drag
    = true →
  Client.connected (Client.lastEmitX p, Client.lastEmitY p)
    (Client.feed_all p drag).2.
Proof.
  revert p. induction drag as [|i drag IH]; intros p Hdrag; [done|].
  simpl in Hdrag. apply andb_true_iff in Hdrag as [Hi Hdrag].
  apply andb_true_iff in Hi as [Hpress Hclean].
  cbn [Client.feed_all].
  destruct (Client.feed p i) as [p1 out] eqn:Hfeed.
  specialize (IH p1 Hdrag).
  destruct (Client.feed_all p1 drag) as [p2 rest]. cbn [snd] in *.
  destruct i as [mx my|n pressed mx my params|mode]; [done| |].
  - unfold Client.feed in Hfeed.
    destruct (pressed && bool_decide (n `mod` 2 = 0)).
    + injection Hfeed as <- <-. cbn [app Client.connected].
      rewrite emitStroke_clean by done. split; [done|].
      by exists (mx, my).
    + by injection Hfeed as <- <-.
  - by injection Hfeed as <- <-.
Qed.

(** X14. The strokes sent during one drag form an unbroken line: the
    first starts at the point where the mouse was pressed, and each
    later one starts where the one before ended, whichever frames were
    skipped in between and whatever the brush mode was changed to.
    This needs the sound parameters not to carry [x], [y], [px] or
    [py]. *)
Theorem drag_is_connected (p : Client.pen) (x y : JS.value)
    (drag : list Client.input) :
  forallb (λ i, negb (Client.is_press i) && Client.clean_input i) drag
    = true →
  Client.connected (x, y)
    (Client.feed_all p (Client.MousePressed x y :: drag)).2.
Proof.
  intros Hdrag. cbn [Client.feed_all Client.feed].
  pose proof (feed_all_connected
                {| Client.lastEmitX := x; Client.lastEmitY := y;
                   Client.currentBrushMode := Client.currentBrushMode p |}
                drag Hdrag) as Hc.
  by destruct (Client.feed_all _ drag) as [p2 rest].
Qed.

Lemma drag_is_connected_witness :
  Client.connected (JS.Num 5, JS.Num 15)
    (Client.feed_all
       {| Client.lastEmitX := JS.Num 0; Client.lastEmitY := JS.Num 0;
          Client.currentBrushMode := "marker" |}
       [Client.MousePressed (JS.Num 5) (JS.Num 15);
        Client.Draw 7 true (JS.Num 8) (JS.Num 18) [("size", JS.Num 30)];
        Client.Draw 8 true (JS.Num 10) (JS.Num 20) [("size", JS.Num 30)];
        Client.BrushMode "jitter";
        Client.Draw 9 true (JS.Num 12) (JS.Num 22) [("size", JS.Num 31)];
        Client.Draw 10 true (JS.Num 14) (JS.Num 24) [("size", JS.Num 32)]]).2.
Proof.
  apply (drag_is_connected _ (JS.Num 5) (JS.Num 15)). reflexivity.
Defined.

(** ** The online counter *)

Lemma shown_after_app (m : string) (shown : JS.value)
    (out1 out2 : list delivery) :
  Client.shown_after m shown (out1 ++ out2) =
    Client.shown_after m (Client.shown_after m shown out1) out2.
Proof. unfold Client.shown_after. by rewrite filter_app, foldl_app. Qed.

Lemma shown_after_quiet (m ev : string) (p : option JS.value)
    (shown : JS.value) (l : list string) :
  ev ≠ "room:info" → ev ≠ "room:count" →
  Client.shown_after m shown ((λ s, deliver s ev p) <$> l) = shown.
Proof.
  intros Hinfo Hcount. unfold Client.shown_after.
  induction l as [|s l IH]; [done|]. rewrite fmap_cons.
  destruct (decide (s = m)) as [->|Hne].
  - rewrite filter_cons_True by done. cbn [foldl].
    unfold Client.on_receive at 2. simpl.
    by rewrite !bool_decide_eq_false_2 by done.
  - by rewrite filter_cons_False by done.
Qed.

Lemma shown_after_count (m : string) (n : nat) (shown : JS.value)
    (l : list string) :
  Client.shown_after m shown
    ((λ s, deliver s "room:count" (Some (count_msg n))) <$> l)
  = if decide (m ∈ l) then JS.Num (Z.of_nat n) else shown.
Proof.
  unfold Client.shown_after. revert shown.
  induction l as [|s l IH]; intros shown; [done|]. rewrite fmap_cons.
  destruct (decide (s = m)) as [->|Hne].
  - rewrite filter_cons_True by done. cbn [foldl].
    change (Client.on_receive shown
              (deliver m "room:count" (Some (count_msg n))))
      with (JS.Num (Z.of_nat n)).
    rewrite IH, (decide_True (P := m ∈ m :: l)) by left.
    by case_decide.
  - rewrite filter_cons_False by done. rewrite IH.
    destruct (decide (m ∈ l)) as [Hin|Hnin].
    + by rewrite decide_True by by right.
    + rewrite decide_False; [done|]. intros [?|?]%elem_of_cons; by subst.
Qed.

Lemma shown_after_info (m id : string) (r v shown : JS.value) :
  Client.shown_after m shown
    [deliver id "room:info" (Some (JS.Obj [("room", r); ("userCount", v)]))]
  = if decide (m = id) then v else shown.
Proof.
  unfold Client.shown_after. destruct (decide (m = id)) as [->|Hne].
  - by rewrite filter_cons_True by done.
  - by rewrite filter_cons_False by done.
Qed.

(** X15. After an accepted [join], the counter of every session in the
    room, the joiner's included, shows the number of sessions in the
    room, whatever it showed before; the counters of the sessions
    outside the room are left as they were. *)
Theorem counters_after_join (a : Adapter.t) (id room username m : string)
    (shown : JS.value) :
  room ≠ "" → username ≠ "" →
  ∃ a' out,
    on_join a id (Fields (Some room) (Some username)) = Done a' out
    ∧ Client.shown_after m shown out =
        if decide (m ∈ members a' room)
        then JS.Num (Z.of_nat (length (members a' room)))
        else shown.
Proof.
  intros Hroom Huser. eexists _, _.
  split; [by apply on_join_accepted|]. cbn zeta.
  set (a' := socket_join id room a).
  assert (id ∈ members a' room) as Hid.
  { unfold a'. rewrite members_socket_join, decide_True by done.
    apply elem_of_set_add. by left. }
  rewrite !shown_after_app. unfold socket_to.
  rewrite shown_after_quiet by done.
  unfold socket_emit. rewrite room_size_length, shown_after_info.
  unfold io_to. rewrite shown_after_count.
  case_decide as Hin; [done|]. rewrite decide_False; [done|].
  by intros ->.
Qed.

Lemma counters_after_join_witness :
  ∃ a a' out, run Adapter.empty Scenario.alice_in = Some a
  ∧ on_join a "B" Scenario.bob = Done a' out
  ∧ Client.shown_after "A" (JS.Num 1) out = JS.Num 2
  ∧ Client.shown_after "B" JS.Undefined out = JS.Num 2.
Proof.
  destruct (run Adapter.empty Scenario.alice_in) as [a|] eqn:Hrun;
    [|by vm_compute in Hrun].
  destruct (counters_after_join a "B" "ABCDEF" "Bob" "A" (JS.Num 1))
    as (a' & out & Hjoin & HA); [done..|].
  exists a, a', out. split; [done|]. split; [done|].
  vm_compute in Hrun. injection Hrun as <-.
  vm_compute in Hjoin. injection Hjoin as <- <-.
  split; vm_compute; reflexivity.
Defined.
